(** * physics-engine-glfw: the shader loader and the frame timer

    A shallow embedding of [src/glfw/shader.hpp] (the [shader_program]
    class and the [loader] and [compiler] namespaces), of [time::now] in
    [src/glfw/time.hpp] and of [gl_window::render] in
    [src/glfw/glwindow.hpp].

    The C++ code is stateful: it mutates the fields of one [shader_program],
    allocates character arrays, reads files, calls the OpenGL driver and may
    start a detached thread.  All of that is threaded through an explicit
    [machine] state by a small state-and-abort monad.  The OpenGL driver is an
    external collaborator, so it is an interface ([GLDriver]) the development
    is parametric in; every driver call is also appended to a trace, which is
    how the order of the calls is observed. *)

From Stdlib Require Import ZArith NArith QArith Qcanon Ascii String List.
From stdpp Require Import base numbers option list strings gmap.

(** ** Pointers, character arrays and files *)

(** A pointer is the address of the first element of an array; [nullptr]
    is address zero. *)
Abbreviation ptr := N (only parsing).
Definition nullptr : ptr := 0%N.

(** One [char] of an array obtained from [new char[n]]: such an array is
    not initialised, so a cell holds a character or an indeterminate value. *)
Abbreviation cell := (option ascii) (only parsing).

Definition NUL : ascii := Ascii.zero.

(** The characters of the NUL-terminated string stored at the start of an
    array, when there is one: the scan fails when it leaves the array or
    meets an indeterminate cell before a NUL. *)
Fixpoint c_str (buf : list cell) : option (list ascii) :=
  match buf with
  | [] => None
  | None :: _ => None
  | Some c :: rest =>
      if decide (c = NUL) then Some []
      else match c_str rest with
           | Some s => Some (c :: s)
           | None => None
           end
  end.

(** The string a [const char*] designates in memory [h]. *)
Definition c_str_at (h : gmap N (list cell)) (p : ptr) : option (list ascii) :=
  if decide (p = nullptr) then None
  else match h !! p with
       | Some buf => c_str buf
       | None => None
       end.

(** A file of the filesystem: its bytes, and whether
    [std::fstream f(path)] (default mode [in | out]) manages to open it. *)
Record file := {
  file_data : list ascii;
  file_opens : bool
}.

(** [std::basic_istream::get(s, count, delim)] with [delim = NUL] on a
    stream positioned at the start of [data]: characters are extracted until
    [count - 1] of them are stored, the data ends, or the next one is NUL. *)
Fixpoint extract_until_NUL (budget : nat) (data : list ascii) : list ascii :=
  match budget, data with
  | O, _ => []
  | _, [] => []
  | S b, c :: rest =>
      if decide (c = NUL) then [] else c :: extract_until_NUL b rest
  end.

(** The array of [count] cells after [get(s, count, NUL)] wrote into a fresh
    [new char[count]]: nothing is stored when [count] is zero; otherwise the
    extracted characters (none when the stream did not open) and a
    terminating NUL, the remaining cells staying indeterminate. *)
Definition istream_get (opened : bool) (data : list ascii) (count : nat)
  : list cell :=
  match count with
  | O => []
  | S budget =>
      let got := if opened then extract_until_NUL budget data else [] in
      (Some <$> got) ++ Some NUL :: replicate (budget - length got) None
  end.

(** ** The shader data model (shader.hpp, lines 16-37 and 173-188) *)

Record shader_paths := {
  vertex_shader : ptr;
  fragment_shader : ptr
}.

Record shader_contents := {
  vertex_shader_content : ptr;
  fragment_shader_content : ptr
}.

Definition null_shader_path : shader_paths :=
  {| vertex_shader := nullptr; fragment_shader := nullptr |}.

(** [operator==(shader_paths, shader_paths)]: the two pointers of each side
    are compared, never the strings they point to. *)
Definition shader_paths_eq (left right : shader_paths) : bool :=
  bool_decide (vertex_shader left = vertex_shader right)
  && bool_decide (fragment_shader left = fragment_shader right).

Inductive shader_state :=
| EMPTY | FOUND_PATH | CONTENT | COMPILED | LINKED | DESTROYED.

#[global] Instance shader_state_eq_dec : EqDecision shader_state.
Proof. solve_decision. Defined.

(** [static_cast<uint8_t>(shader_state::X)]. *)
Definition static_cast_uint8 (s : shader_state) : Z :=
  match s with
  | EMPTY => 0 | FOUND_PATH => 1 | CONTENT => 2
  | COMPILED => 3 | LINKED => 4 | DESTROYED => 5
  end%Z.

(** [shader_state(code)]: the enumerator a stored code stands for; a
    [uint8_t] above 5 names none. *)
Definition shader_state_of_uint8 (code : Z) : option shader_state :=
  match code with
  | 0 => Some EMPTY | 1 => Some FOUND_PATH | 2 => Some CONTENT
  | 3 => Some COMPILED | 4 => Some LINKED | 5 => Some DESTROYED
  | _ => None
  end%Z.

Abbreviation GLuint := Z (only parsing).
Abbreviation GLint := Z (only parsing).

(** The fields of [class shader_program]. *)
Record shader_program := {
  paths : shader_paths;
  contents : shader_contents;
  _shader_state : Z;
  vertex_shader_id : GLuint;
  fragment_shader_id : GLuint;
  shader_id : GLuint
}.

(** [new shader_program()]: the default member initialisers, the two stage
    ids zero-initialised by the value-initialisation. *)
Definition new_shader_program : shader_program :=
  {| paths := {| vertex_shader := nullptr; fragment_shader := nullptr |};
     contents := {| vertex_shader_content := nullptr;
                    fragment_shader_content := nullptr |};
     _shader_state := static_cast_uint8 EMPTY;
     vertex_shader_id := 0%Z;
     fragment_shader_id := 0%Z;
     shader_id := 0%Z |}.

Definition get_shader_state (sh : shader_program) : option shader_state :=
  shader_state_of_uint8 (_shader_state sh).
Definition get_shader_paths (sh : shader_program) : shader_paths := paths sh.
Definition get_shader_contents (sh : shader_program) : shader_contents :=
  contents sh.
Definition get_id (sh : shader_program) : GLuint := shader_id sh.
Definition get_vertex_shader_id (sh : shader_program) : GLuint :=
  vertex_shader_id sh.
Definition get_fragment_shader_id (sh : shader_program) : GLuint :=
  fragment_shader_id sh.

(** Field updates. *)
Definition set_paths (p : shader_paths) (sh : shader_program) :=
  {| paths := p; contents := contents sh; _shader_state := _shader_state sh;
     vertex_shader_id := vertex_shader_id sh;
     fragment_shader_id := fragment_shader_id sh; shader_id := shader_id sh |}.
Definition set_contents (c : shader_contents) (sh : shader_program) :=
  {| paths := paths sh; contents := c; _shader_state := _shader_state sh;
     vertex_shader_id := vertex_shader_id sh;
     fragment_shader_id := fragment_shader_id sh; shader_id := shader_id sh |}.
Definition set_state (s : shader_state) (sh : shader_program) :=
  {| paths := paths sh; contents := contents sh;
     _shader_state := static_cast_uint8 s;
     vertex_shader_id := vertex_shader_id sh;
     fragment_shader_id := fragment_shader_id sh; shader_id := shader_id sh |}.
Definition set_vertex_shader_id (i : GLuint) (sh : shader_program) :=
  {| paths := paths sh; contents := contents sh;
     _shader_state := _shader_state sh; vertex_shader_id := i;
     fragment_shader_id := fragment_shader_id sh; shader_id := shader_id sh |}.
Definition set_fragment_shader_id (i : GLuint) (sh : shader_program) :=
  {| paths := paths sh; contents := contents sh;
     _shader_state := _shader_state sh;
     vertex_shader_id := vertex_shader_id sh; fragment_shader_id := i;
     shader_id := shader_id sh |}.
Definition set_shader_id (i : GLuint) (sh : shader_program) :=
  {| paths := paths sh; contents := contents sh;
     _shader_state := _shader_state sh;
     vertex_shader_id := vertex_shader_id sh;
     fragment_shader_id := fragment_shader_id sh; shader_id := i |}.

(** A [char*&] parameter of [__loader_func]: a reference to one of the two
    content fields of the program. *)
Inductive content_ref := vertex_content_ref | fragment_content_ref.

Definition assign_ref (r : content_ref) (p : ptr) (sh : shader_program)
  : shader_program :=
  match r with
  | vertex_content_ref =>
      set_contents {| vertex_shader_content := p;
                      fragment_shader_content :=
                        fragment_shader_content (contents sh) |} sh
  | fragment_content_ref =>
      set_contents {| vertex_shader_content :=
                        vertex_shader_content (contents sh);
                      fragment_shader_content := p |} sh
  end.

(** ** The OpenGL driver: the calls shader.hpp makes *)

Inductive shader_type := GL_VERTEX_SHADER | GL_FRAGMENT_SHADER.
Inductive shader_pname := GL_COMPILE_STATUS | GL_INFO_LOG_LENGTH.

Definition GL_FALSE : GLint := 0%Z.

(** The driver is outside the repository.  [G] is its internal state; each
    call is a function of it.  [glShaderSource] receives the string its
    pointer argument designates ([None] when the pointer designates no
    NUL-terminated string: what a driver does then is the driver's).
    [glGetShaderInfoLog] returns the log the driver holds for the stage;
    what of it reaches the caller's array is [info_log_written] below. *)
Class GLDriver (G : Type) := {
  glCreateShader : shader_type -> G -> GLuint * G;
  glShaderSource : GLuint -> option (list ascii) -> G -> G;
  glCompileShader : GLuint -> G -> G;
  glCreateProgram : G -> GLuint * G;
  glAttachShader : GLuint -> GLuint -> G -> G;
  glLinkProgram : GLuint -> G -> G;
  glDeleteShader : GLuint -> G -> G;
  glDeleteProgram : GLuint -> G -> G;
  glGetShaderiv : GLuint -> shader_pname -> G -> GLint * G;
  glGetShaderInfoLog : GLuint -> GLint -> G -> list ascii * G
}.

(** What the program does to the outside, in order. *)
Inductive event :=
| fstream_open (path : string)
| file_size (path : string)
| operator_new_char (n : nat) (p : ptr)
| istream_get_into (p : ptr) (count : nat)
| thread_detach (vpth fpth : ptr)
| gl_CreateShader (ty : shader_type) (id : GLuint)
| gl_ShaderSource (id : GLuint) (source : option (list ascii))
| gl_CompileShader (id : GLuint)
| gl_CreateProgram (id : GLuint)
| gl_AttachShader (program id : GLuint)
| gl_LinkProgram (program : GLuint)
| gl_DeleteShader (id : GLuint)
| gl_DeleteProgram (program : GLuint)
| gl_GetShaderiv (id : GLuint) (pname : shader_pname) (param : GLint)
| gl_GetShaderInfoLog (id : GLuint) (bufSize : GLint)
| operator_delete_array (p : ptr)
| printf (text : string).

Inductive errc := no_such_file_or_directory.

(** What [std::filesystem::file_size] throws, and what [new char[n]]
    throws when [n] is negative. *)
Inductive exception :=
| filesystem_error (path : string) (code : errc)
| bad_array_new_length.

(** How a call ends: it returns, it throws, or it has no defined
    behaviour (a null or dangling path pointer handed to the library, a
    read past the end of an array). *)
Inductive result (A : Type) :=
| Normal (a : A)
| Thrown (e : exception)
| Undefined.
Arguments Normal {A} a.
Arguments Thrown {A} e.
Arguments Undefined {A}.

(** The work a detached loader thread still has to do: the stages of
    [__loader_func] not yet run, each a destination reference and a path. *)
Abbreviation task := (list (content_ref * ptr)) (only parsing).

(** ** The machine state and its monad *)

Section Machine.
Context {G : Type}.

(** One shader program, the memory and files around it, the driver, the
    trace so far, and the detached threads still running. *)
Record machine := {
  this : shader_program;
  heap : gmap N (list cell);
  files : gmap string file;
  gl : G;
  trace : list event;
  detached : list task
}.

Definition with_this (sh : shader_program) (m : machine) : machine :=
  {| this := sh; heap := heap m; files := files m; gl := gl m;
     trace := trace m; detached := detached m |}.
Definition with_heap (h : gmap N (list cell)) (m : machine) : machine :=
  {| this := this m; heap := h; files := files m; gl := gl m;
     trace := trace m; detached := detached m |}.
Definition with_gl (g : G) (m : machine) : machine :=
  {| this := this m; heap := heap m; files := files m; gl := g;
     trace := trace m; detached := detached m |}.
Definition with_trace (t : list event) (m : machine) : machine :=
  {| this := this m; heap := heap m; files := files m; gl := gl m;
     trace := t; detached := detached m |}.
Definition with_detached (d : list task) (m : machine) : machine :=
  {| this := this m; heap := heap m; files := files m; gl := gl m;
     trace := trace m; detached := d |}.

Definition M (A : Type) : Type := machine -> result A * machine.

Definition ret {A} (a : A) : M A := fun m => (Normal a, m).

Definition bind {A B} (c : M A) (k : A -> M B) : M B :=
  fun m =>
    match c m with
    | (Normal a, m') => k a m'
    | (Thrown e, m') => (Thrown e, m')
    | (Undefined, m') => (Undefined, m')
    end.

Definition throw {A} (e : exception) : M A := fun m => (Thrown e, m).
Definition undefined {A} : M A := fun m => (Undefined, m).
Definition get_machine : M machine := fun m => (Normal m, m).
Definition update (f : machine -> machine) : M unit :=
  fun m => (Normal tt, f m).
Definition update_this (f : shader_program -> shader_program) : M unit :=
  update (fun m => with_this (f (this m)) m).
Definition emit (e : event) : M unit :=
  update (fun m => with_trace (trace m ++ [e]) m).

(** A driver call that returns a value, and one that returns nothing. *)
Definition gl_call {A} (f : G -> A * G) : M A :=
  fun m => (Normal (f (gl m)).1, with_gl (f (gl m)).2 m).
Definition gl_do (f : G -> G) : M unit :=
  update (fun m => with_gl (f (gl m)) m).

End Machine.
Arguments machine G : clear implicits.
Arguments M G A : clear implicits.

(** The monad operations, under stdpp's [x ← c; k] and [c ;; k] notations. *)
#[global] Instance M_ret {G} : MRet (M G) := fun A a => ret a.
#[global] Instance M_bind {G} : MBind (M G) := fun A B k c => bind c k.

(** ** [class shader_program]: the member functions *)

Section ShaderProgram.
Context {G : Type} `{!GLDriver G}.

(** [new char[n]]: an address that is not null and holds no array yet; the
    new array's cells are indeterminate. *)
Definition new_char_array (n : nat) : M G ptr :=
  m ← get_machine;
  let p : ptr := fresh ({[nullptr]} ∪ dom (heap m)) in
  update (fun m => with_heap (<[p := replicate n None]> (heap m)) m);;
  emit (operator_new_char n p);;
  mret p.

(** [new char[n]] for an [int] (a [GLint]): a negative length throws
    [std::bad_array_new_length]. *)
Definition new_char_array_int (n : GLint) : M G ptr :=
  if decide (n < 0)%Z then throw bad_array_new_length
  else new_char_array (Z.to_nat n).

(** [delete[] p]: nothing for a null pointer; otherwise the array at [p]
    is gone.  A pointer that designates no array has no defined behaviour
    there. *)
Definition delete_char_array (p : ptr) : M G unit :=
  m ← get_machine;
  if decide (p = nullptr) then mret tt
  else
    match heap m !! p with
    | None => undefined
    | Some _ =>
        update (fun m => with_heap (delete p (heap m)) m);;
        emit (operator_delete_array p)
    end.

(** What [glGetShaderInfoLog(id, bufSize, NULL, infoLog)] leaves in the
    array at [infoLog] when the driver's log is [log]: at most
    [bufSize - 1] characters of it and the terminator, the cells after
    them as they were; nothing at all for a [bufSize] of zero. *)
Definition info_log_written (bufSize : nat) (log : list ascii)
    (buf : list cell) : list cell :=
  match bufSize with
  | O => buf
  | S n =>
      (Some <$> take n log) ++ Some NUL :: drop (S (length (take n log))) buf
  end.

(** One stage of [__loader_func] (lines 53-56, and again 58-61): open the
    stream, ask the filesystem for the size, allocate that many characters,
    assign the array to the referenced field, and [get] into it.
    [std::filesystem::file_size] throws when the file does not exist;
    the stream constructor does not. *)
Definition load_stage (sc : content_ref) (pth : ptr) : M G unit :=
  m ← get_machine;
  match c_str_at (heap m) pth with
  | None => undefined
  | Some name =>
      let path := string_of_list_ascii name in
      emit (fstream_open path);;
      emit (file_size path);;
      match files m !! path with
      | None => throw (filesystem_error path no_such_file_or_directory)
      | Some f =>
          let sz := length (file_data f) in
          p ← new_char_array sz;
          update_this (assign_ref sc p);;
          update (fun m =>
            with_heap (<[p := istream_get (file_opens f) (file_data f) sz]>
                         (heap m)) m);;
          emit (istream_get_into p sz)
      end
  end.

Definition __loader_func (vsc fsc : content_ref) (vpth fpth : ptr)
  : M G unit :=
  load_stage vsc vpth;;
  load_stage fsc fpth.

Definition set_path (p : shader_paths) : M G unit :=
  update_this (set_paths p);;
  update_this (set_state FOUND_PATH).

(** [load_file<async>()].  The asynchronous branch constructs a thread
    that will run [__loader_func] on references to the two content fields
    and on the two path pointers as they are now, and detaches it: the call
    returns with nothing loaded yet and keeps no handle on the thread. *)
Definition load_file (async : bool) : M G unit :=
  m ← get_machine;
  let vpth := vertex_shader (paths (this m)) in
  let fpth := fragment_shader (paths (this m)) in
  if async then
    update (fun m =>
      with_detached
        (detached m ++ [[(vertex_content_ref, vpth);
                         (fragment_content_ref, fpth)]]) m);;
    emit (thread_detach vpth fpth)
  else
    __loader_func vertex_content_ref fragment_content_ref vpth fpth.

Definition set_content (vertex_shader_content' fragment_shader_content' : ptr)
  : M G unit :=
  update_this (assign_ref vertex_content_ref vertex_shader_content');;
  update_this (assign_ref fragment_content_ref fragment_shader_content');;
  update_this (set_state CONTENT).

Definition compile_shader : M G unit :=
  vid ← gl_call (glCreateShader GL_VERTEX_SHADER);
  emit (gl_CreateShader GL_VERTEX_SHADER vid);;
  update_this (set_vertex_shader_id vid);;
  m ← get_machine;
  let vsrc := c_str_at (heap m) (vertex_shader_content (contents (this m))) in
  gl_do (glShaderSource vid vsrc);;
  emit (gl_ShaderSource vid vsrc);;
  gl_do (glCompileShader vid);;
  emit (gl_CompileShader vid);;
  fid ← gl_call (glCreateShader GL_FRAGMENT_SHADER);
  emit (gl_CreateShader GL_FRAGMENT_SHADER fid);;
  update_this (set_fragment_shader_id fid);;
  m ← get_machine;
  let fsrc :=
    c_str_at (heap m) (fragment_shader_content (contents (this m))) in
  gl_do (glShaderSource fid fsrc);;
  emit (gl_ShaderSource fid fsrc);;
  gl_do (glCompileShader fid);;
  emit (gl_CompileShader fid);;
  update_this (set_state COMPILED).

Definition link_shader : M G unit :=
  pid ← gl_call glCreateProgram;
  emit (gl_CreateProgram pid);;
  update_this (set_shader_id pid);;
  m ← get_machine;
  let vid := vertex_shader_id (this m) in
  let fid := fragment_shader_id (this m) in
  gl_do (glAttachShader pid vid);;
  emit (gl_AttachShader pid vid);;
  gl_do (glAttachShader pid fid);;
  emit (gl_AttachShader pid fid);;
  gl_do (glLinkProgram pid);;
  emit (gl_LinkProgram pid);;
  gl_do (glDeleteShader vid);;
  emit (gl_DeleteShader vid);;
  gl_do (glDeleteShader fid);;
  emit (gl_DeleteShader fid);;
  update_this (set_state LINKED).

(** [~shader_program()]. *)
Definition destructor : M G unit :=
  m ← get_machine;
  gl_do (glDeleteProgram (shader_id (this m)));;
  emit (gl_DeleteProgram (shader_id (this m)));;
  update_this (set_state DESTROYED).

(** The scheduler lets detached thread [i] run its next stage.  A thread
    with no stage left has finished and is dropped. *)
Definition worker_step (i : nat) : M G unit :=
  m ← get_machine;
  match detached m !! i with
  | None => mret tt
  | Some [] => update (fun m => with_detached (delete i (detached m)) m)
  | Some ((sc, pth) :: rest) =>
      update (fun m => with_detached (<[i := rest]> (detached m)) m);;
      load_stage sc pth
  end.

End ShaderProgram.

(** ** [namespace loader] *)

Module loader.
Section WithDriver.
Context {G : Type} `{!GLDriver G}.

(** [get_shader]: a fresh program with its paths set. *)
Definition get_shader (p : shader_paths) : M G unit :=
  update_this (fun _ => new_shader_program);;
  set_path p.

Definition load_shader_contents : M G unit := load_file false.
Definition load_shader_contents_async : M G unit := load_file true.

Definition full_load_shader (async_load : bool) : M G unit :=
  m ← get_machine;
  (if negb (shader_paths_eq (get_shader_paths (this m)) null_shader_path)
   then (if async_load then load_file true else load_file false)
   else mret tt);;
  compile_shader;;
  link_shader.

End WithDriver.
End loader.

(** ** [namespace compiler] *)

Module compiler.
Section WithDriver.
Context {G : Type} `{!GLDriver G}.

Definition compile_shader : M G unit := link_shader.

Definition newline : string := String (ascii_of_nat 10) EmptyString.

(** The report on one stage in [log_compilation_status] (lines 302-314,
    and again 318-330).  For a stage the driver reports as not compiled,
    the length of its log is asked for, [new char[param]] allocates the
    temporary [infoLog] array (a negative [param] throws), the driver
    fills it, [printf] reads it as a string through [%s] (which has no
    defined behaviour when the array holds no terminated string, as for a
    length of zero), and [delete[]] frees it. *)
Definition log_stage_status (id : GLuint) (stage : string) : M G unit :=
  param ← gl_call (glGetShaderiv id GL_COMPILE_STATUS);
  emit (gl_GetShaderiv id GL_COMPILE_STATUS param);;
  if decide (param = GL_FALSE) then
    emit (printf ("SHADER_COMPILATION_ERROR for " +:+ stage +:+ " shader"
                  +:+ newline));;
    param ← gl_call (glGetShaderiv id GL_INFO_LOG_LENGTH);
    emit (gl_GetShaderiv id GL_INFO_LOG_LENGTH param);;
    infoLog ← new_char_array_int param;
    log ← gl_call (glGetShaderInfoLog id param);
    update (fun m =>
      with_heap
        (<[infoLog := info_log_written (Z.to_nat param) log
                        (replicate (Z.to_nat param) None)]> (heap m)) m);;
    emit (gl_GetShaderInfoLog id param);;
    m ← get_machine;
    match c_str_at (heap m) infoLog with
    | None => undefined
    | Some text =>
        emit (printf ("INFO_LOG:" +:+ newline +:+ string_of_list_ascii text
                      +:+ newline));;
        delete_char_array infoLog
    end
  else
    emit (printf ("SHADER_STATUS for " +:+ stage +:+ " shader: GOOD"
                  +:+ newline)).

(** [log_compilation_status(const shader_program&)]. *)
Definition log_compilation_status : M G unit :=
  m ← get_machine;
  log_stage_status (get_vertex_shader_id (this m)) "vertex";;
  log_stage_status (get_fragment_shader_id (this m)) "fragment".

End WithDriver.
End compiler.

(** ** A reference driver

    A small driver to run the code against: names are handed out in
    increasing order from 1, a stage compiles when it was given a non-empty
    source string, and the info log of a failed stage is a fixed text. *)

Record ref_gl := {
  next_name : positive;
  shader_sources : gmap Z (option (list ascii));
  compile_status : gmap Z bool
}.

Definition ref_gl_init : ref_gl :=
  {| next_name := 1%positive; shader_sources := ∅; compile_status := ∅ |}.

Definition ref_accepts (source : option (list ascii)) : bool :=
  match source with
  | Some (_ :: _) => true
  | _ => false
  end.

Definition ref_create (g : ref_gl) : GLuint * ref_gl :=
  (Z.pos (next_name g),
   {| next_name := Pos.succ (next_name g);
      shader_sources := shader_sources g;
      compile_status := compile_status g |}).

Definition ref_info_log : list ascii := list_ascii_of_string "no source".

#[global] Instance ref_gl_driver : GLDriver ref_gl := {|
  glCreateShader := fun _ g => ref_create g;
  glShaderSource := fun id src g =>
    {| next_name := next_name g;
       shader_sources := <[id := src]> (shader_sources g);
       compile_status := compile_status g |};
  glCompileShader := fun id g =>
    {| next_name := next_name g;
       shader_sources := shader_sources g;
       compile_status :=
         <[id := ref_accepts (default None (shader_sources g !! id))]>
           (compile_status g) |};
  glCreateProgram := ref_create;
  glAttachShader := fun _ _ g => g;
  glLinkProgram := fun _ g => g;
  glDeleteShader := fun _ g => g;
  glDeleteProgram := fun _ g => g;
  glGetShaderiv := fun id pname g =>
    (match pname with
     | GL_COMPILE_STATUS =>
         if default false (compile_status g !! id) then 1%Z else 0%Z
     | GL_INFO_LOG_LENGTH =>
         if default false (compile_status g !! id) then 0%Z
         else Z.of_nat (S (length ref_info_log))
     end, g);
  glGetShaderInfoLog := fun id _ g =>
    (if default false (compile_status g !! id) then [] else ref_info_log, g)
|}.

(** ** A driver that creates nothing

    [glCreateShader] and [glCreateProgram] return 0 when an error occurs
    creating the object (for instance when the calling thread has no
    current context).  This driver is in that condition for good: both
    return 0, the other calls do nothing and every query answers 0. *)
Inductive failing_gl := failing_gl_state.

#[global] Instance failing_gl_driver : GLDriver failing_gl := {|
  glCreateShader := fun _ g => (0%Z, g);
  glShaderSource := fun _ _ g => g;
  glCompileShader := fun _ g => g;
  glCreateProgram := fun g => (0%Z, g);
  glAttachShader := fun _ _ g => g;
  glLinkProgram := fun _ g => g;
  glDeleteShader := fun _ g => g;
  glDeleteProgram := fun _ g => g;
  glGetShaderiv := fun _ _ g => (0%Z, g);
  glGetShaderInfoLog := fun _ _ g => ([], g)
|}.

(** A machine around a fresh program: the caller's memory [h] and the
    filesystem [fs] are given, nothing was called yet, no thread runs. *)
Definition initial_machine {G} (h : gmap N (list cell))
    (fs : gmap string file) (g : G) : machine G :=
  {| this := new_shader_program; heap := h; files := fs; gl := g;
     trace := []; detached := [] |}.

(** A string literal in static memory. *)
Definition literal (s : string) : list cell :=
  (Some <$> list_ascii_of_string s) ++ [Some NUL].

(** ** Sequences of operations on one program *)

(** The operations a caller can invoke on the program. *)
Inductive call :=
| call_set_path (p : shader_paths)
| call_load_file (async : bool)
| call_set_content (vertex_shader_content' fragment_shader_content' : ptr)
| call_compile_shader
| call_link_shader
| call_destructor
| call_full_load_shader (async_load : bool)
| call_compiler_compile_shader
| call_log_compilation_status.

Section Runs.
Context {G : Type} `{!GLDriver G}.

Definition run (c : call) : M G unit :=
  match c with
  | call_set_path p => set_path p
  | call_load_file async => load_file async
  | call_set_content v f => set_content v f
  | call_compile_shader => compile_shader
  | call_link_shader => link_shader
  | call_destructor => destructor
  | call_full_load_shader async_load => loader.full_load_shader async_load
  | call_compiler_compile_shader => compiler.compile_shader
  | call_log_compilation_status => compiler.log_compilation_status
  end.

(** One step of the whole program: the caller's thread makes a call that
    returns, or one that throws (and catches the exception), or a detached
    loader thread runs one stage.  A call or a stage without defined
    behaviour, and a loader thread that throws (which terminates the
    process), are no steps. *)
Inductive step : machine G -> machine G -> Prop :=
| step_returns c m m' : run c m = (Normal tt, m') -> step m m'
| step_throws c e m m' : run c m = (Thrown e, m') -> step m m'
| step_thread i m m' : worker_step i m = (Normal tt, m') -> step m m'.

(** The machines some sequence of steps produces from a fresh program. *)
Definition reachable (m : machine G) : Prop :=
  exists h fs g, rtc step (initial_machine h fs g) m.

(** An asynchronous load is in flight while a detached thread exists. *)
Definition in_flight (m : machine G) : bool :=
  negb (bool_decide (detached m = [])).

End Runs.

(** The content is populated when a content pointer is not null. *)
Definition content_populated (sh : shader_program) : bool :=
  negb (bool_decide (vertex_shader_content (contents sh) = nullptr))
  || negb (bool_decide (fragment_shader_content (contents sh) = nullptr)).


(** ** The invariant of the reachable machines

    A program still in state EMPTY has no content and null paths, and every
    stage a detached thread has left was given a null path (the thread was
    started before any path was set). *)

Definition null_tasks (d : list (list (content_ref * N))) : Prop :=
  Forall (Forall (fun st => st.2 = nullptr)) d.

Definition state_inv {G} (m : machine G) : Prop :=
  (exists s, get_shader_state (this m) = Some s)
  /\ (get_shader_state (this m) = Some EMPTY ->
      content_populated (this m) = false
      /\ paths (this m) = null_shader_path
      /\ null_tasks (detached m)).

(** ** The state machine as the specification draws it

    These two definitions follow the specification's words (section 4.1),
    not the code: the edges of its state machine, and the state each
    operation requires. *)

Definition spec_edge (from to : shader_state) : bool :=
  match from, to with
  | EMPTY, FOUND_PATH => true
  | EMPTY, CONTENT => true
  | FOUND_PATH, CONTENT => true
  | CONTENT, COMPILED => true
  | COMPILED, LINKED => true
  | _, DESTROYED => true
  | _, _ => false
  end.

Definition spec_requires (c : call) (s : shader_state) : bool :=
  match c with
  | call_set_path _ => bool_decide (s = EMPTY)
  | call_set_content _ _ => bool_decide (s = EMPTY \/ s = FOUND_PATH)
  | call_load_file _ => bool_decide (s = FOUND_PATH)
  | call_compile_shader => bool_decide (s = CONTENT)
  | call_link_shader => bool_decide (s = COMPILED)
  | call_compiler_compile_shader => bool_decide (s = COMPILED)
  | call_destructor => bool_decide (s <> DESTROYED)
  | call_full_load_shader _ => bool_decide (s = FOUND_PATH \/ s = CONTENT)
  | call_log_compilation_status => bool_decide (s = COMPILED)
  end.

(** ** [namespace time] and [gl_window::render] *)

Module glfw_time.

(** [std::chrono::nanoseconds::period::den]. *)
Definition nanoseconds_period_den : Z := 1000000000.

(** The clock's [count()] is a signed 64-bit integer. *)
Definition rep_range (count : Z) : Prop := (- 2 ^ 63 <= count < 2 ^ 63)%Z.

(** A [long double] is modelled by the rational it denotes.  The only
    values formed here are integers below [2 ^ 53] in magnitude (see
    [now_fits_the_mantissa]) and differences of two of them, which every
    [long double] format represents exactly. *)
Definition long_double := Qc.
Definition long_double_of_integer (z : Z) : long_double := Qc_of_Z z.

(** [time::now()], given the clock's current [count()]: both operands of
    the division are integers, so it is the integer division of C++, which
    truncates; the quotient is then converted to [long double]. *)
Definition now (count : Z) : long_double :=
  long_double_of_integer (Z.quot count nanoseconds_period_den).

(** The global [time::deltaTime]. *)
Record globals := { deltaTime : long_double }.

(** The assignment [glfw::time::deltaTime = v]. *)
Definition set_deltaTime (v : long_double) (g : globals) : globals :=
  {| deltaTime := v |}.

(** [gl_window::render()]: the clock is read before and after the
    renderer, which may be absent and may itself change the globals. *)
Definition render (_renderer : option (globals -> globals))
    (count_before count_after : Z) (g : globals) : globals :=
  let start_of_renderer := now count_before in
  let after_renderer := match _renderer with
                        | Some renderer => renderer g
                        | None => g
                        end in
  set_deltaTime (now count_after - start_of_renderer)%Qc after_renderer.

End glfw_time.

(** ** A concrete scenario

    Static memory holds three file names; the filesystem has the vertex and
    the fragment file, and no file called [missing.glsl]. *)

Definition example_heap : gmap N (list cell) :=
  <[10%N := literal "v.glsl"]>
    (<[20%N := literal "f.glsl"]>
       (<[30%N := literal "missing.glsl"]> ∅)).

Definition example_files : gmap string file :=
  <["v.glsl" := {| file_data := list_ascii_of_string "void main(){}";
                   file_opens := true |}]>
    (<["f.glsl" := {| file_data := list_ascii_of_string "void main(){ }";
                     file_opens := true |}]> ∅).

Definition example_machine : machine ref_gl :=
  initial_machine example_heap example_files ref_gl_init.

Definition example_paths : shader_paths :=
  {| vertex_shader := 10%N; fragment_shader := 20%N |}.

Definition example_paths_missing : shader_paths :=
  {| vertex_shader := 10%N; fragment_shader := 30%N |}.

(** ** [loader] and [compiler] on vectors of programs *)

(** The largest [int]. *)
Definition INT_MAX : Z := 2147483647.

Section Vectors.
Context {G : Type} `{!GLDriver G}.

(** A member function invoked on an element of a vector: the element is
    [this] while the function runs, and is read back when it ends (also
    when it throws); the machine's own program is then put back. *)
Definition on_shader (op : M G unit) (shader : shader_program)
    (m : machine G) : result unit * (shader_program * machine G) :=
  let r := op (with_this shader m) in
  (r.1, (this r.2, with_this (this m) r.2)).

(** [for(shader_program& shader : shaders) shader.op();]: the elements in
    order; an exception leaves the loop, with the elements before it
    already changed and those after it not reached.  The vector is passed
    explicitly.  The loop runs on the caller's thread, with no other
    thread touching the vector meanwhile. *)
Fixpoint for_each_shader (op : M G unit) (shaders : list shader_program)
    (m : machine G) : result unit * (list shader_program * machine G) :=
  match shaders with
  | [] => (Normal tt, ([], m))
  | shader :: rest =>
      match on_shader op shader m with
      | (Normal _, (shader', m')) =>
          match for_each_shader op rest m' with
          | (r, (rest', m'')) => (r, (shader' :: rest', m''))
          end
      | (Thrown e, (shader', m')) => (Thrown e, (shader' :: rest, m'))
      | (Undefined, (shader', m')) => (Undefined, (shader' :: rest, m'))
      end
  end.

(** The loop of [get_multiple_shaders] from index [i], with [n] elements
    still to visit ([i < paths.size()] holds while [n] is not zero):
    [_hRes[i].set_path(paths[i])], then [i++] on an [int], which has no
    defined behaviour past [INT_MAX]. *)
Fixpoint get_multiple_shaders_loop (n i : nat) (paths : list shader_paths)
    (_hRes : list shader_program) (m : machine G)
  : result unit * (list shader_program * machine G) :=
  match n with
  | O => (Normal tt, (_hRes, m))
  | S n' =>
      match _hRes !! i, paths !! i with
      | Some shader, Some p =>
          match on_shader (set_path p) shader m with
          | (Normal _, (shader', m')) =>
              if decide (Z.of_nat i + 1 <= INT_MAX)%Z
              then get_multiple_shaders_loop n' (S i) paths
                     (<[i := shader']> _hRes) m'
              else (Undefined, (<[i := shader']> _hRes, m'))
          | (Thrown e, (shader', m')) =>
              (Thrown e, (<[i := shader']> _hRes, m'))
          | (Undefined, (shader', m')) =>
              (Undefined, (<[i := shader']> _hRes, m'))
          end
      | _, _ => (Undefined, (_hRes, m))
      end
  end.

(** [loader::get_multiple_shaders]: a vector of [paths.size()]
    value-initialised programs, then the loop; the vector is returned. *)
Definition get_multiple_shaders (paths : list shader_paths) (m : machine G)
  : result unit * (list shader_program * machine G) :=
  let _hRes := replicate (length paths) new_shader_program in
  get_multiple_shaders_loop (length paths) 0 paths _hRes m.


(** [compiler::compile_shaders]: [link_shader] on every element. *)
Definition compile_shaders := for_each_shader link_shader.

End Vectors.

(** ** Memory and files across operations *)

(** From [m] to [m'] the filesystem is the same and every array of the
    memory is still there with the same cells. *)
Definition keeps_memory_and_files {G} (m m' : machine G) : Prop :=
  files m' = files m /\ heap m ⊆ heap m'.

(** ** Where the program name comes from *)

(** The program name is zero or a name a [glCreateProgram] call of the
    trace returned. *)
Definition handle_created {G} (m : machine G) : Prop :=
  shader_id (this m) = 0%Z
  \/ gl_CreateProgram (shader_id (this m)) ∈ trace m.

(** From [m] to [m'] the trace only grew, and the program name is the same
    or one a [glCreateProgram] call of the trace returned. *)
Definition grows_keeping_handle {G} (m m' : machine G) : Prop :=
  trace m `prefix_of` trace m'
  /\ (shader_id (this m') = shader_id (this m)
      \/ gl_CreateProgram (shader_id (this m')) ∈ trace m').


(** ** error.hpp: names of the OpenGL error codes *)

Module error.

(** The error codes of OpenGL, as the OpenGL headers define them (the
    headers are not part of the repository). *)
Definition GL_NO_ERROR : Z := 0.
Definition GL_INVALID_ENUM : Z := 1280.
Definition GL_INVALID_VALUE : Z := 1281.
Definition GL_INVALID_OPERATION : Z := 1282.
Definition GL_STACK_OVERFLOW : Z := 1283.
Definition GL_STACK_UNDERFLOW : Z := 1284.
Definition GL_OUT_OF_MEMORY : Z := 1285.
Definition GL_INVALID_FRAMEBUFFER_OPERATION : Z := 1286.
Definition GL_CONTEXT_LOST : Z := 1287.

Definition errors : list string :=
  [ "GL_NO_ERROR"; "GL_INVALID_ENUM"; "GL_INVALID_VALUE";
    "GL_INVALID_OPERATION"; "GL_STACK_OVERFLOW"; "GL_STACK_UNDERFLOW";
    "GL_OUT_OF_MEMORY"; "GL_INVALID_FRAMEBUFFER_OPERATION";
    "GL_CONTEXT_LOST" ].

(** The index [errcode==0?0:errcode-(GL_INVALID_ENUM-1)]: [errcode] is a
    [GLenum], an unsigned 32-bit integer, so the subtraction wraps. *)
Definition errcode_index (errcode : Z) : Z :=
  if decide (errcode = 0%Z) then 0%Z
  else ((errcode - (GL_INVALID_ENUM - 1)) mod 2 ^ 32)%Z.

(** [CONVERT_GL_ERRCODE_TO_STRING(errcode)]: the element of [errors] at
    that index; there is none when the index is past the array. *)
Definition CONVERT_GL_ERRCODE_TO_STRING (errcode : Z) : option string :=
  errors !! Z.to_nat (errcode_index errcode).

Record error_base := {
  _code : Z;
  _msg : string
}.

Definition what (e : error_base) : string := _msg e.
Definition code (e : error_base) : Z := _code e.

(** [error_base::reuse]. *)
Definition reuse (msg : string) (code : Z) (e : error_base) : error_base :=
  {| _code := code; _msg := msg |}.

(** [glGetError] on the driver's stack of recorded errors, the most recent
    call's first: it returns the first recorded error and removes it, or
    [GL_NO_ERROR] when none is recorded. *)
Definition glGetError (stack : list Z) : Z * list Z :=
  match stack with
  | [] => (GL_NO_ERROR, [])
  | errcode :: rest => (errcode, rest)
  end.

(** [get_last_error].  [None] stands for the read past the array. *)
Definition get_last_error (stack : list Z) : option (error_base * list Z) :=
  let (errcode, stack') := glGetError stack in
  match CONVERT_GL_ERRCODE_TO_STRING errcode with
  | Some msg => Some ({| _code := errcode; _msg := msg |}, stack')
  | None => None
  end.

(** The loop of [read_error_stack]: the callback acts on a state of the
    caller's.  It is written by recursion on the stack, each turn taking
    what [glGetError] returns and leaves. *)
Fixpoint read_error_stack_loop {S : Type} (func : error_base -> S -> S)
    (err : error_base) (stack : list Z) (s : S) : option (S * list Z) :=
  match stack with
  | [] => Some (s, [])
  | errcode :: rest =>
      if decide (errcode = GL_NO_ERROR) then Some (s, rest)
      else
        match CONVERT_GL_ERRCODE_TO_STRING errcode with
        | Some msg =>
            let err' := reuse msg errcode err in
            read_error_stack_loop func err' rest (func err' s)
        | None => None
        end
  end.

(** [read_error_stack(func)], with its default-constructed [err]. *)
Definition read_error_stack {S : Type} (func : error_base -> S -> S)
    (stack : list Z) (s : S) : option (S * list Z) :=
  read_error_stack_loop func {| _code := 0; _msg := EmptyString |} stack s.

End error.

(** ** glwindow.hpp: the window and its listener *)

Module glwindow.

(** The calls made to GLFW, with their arguments (and for
    [glfwCreateWindow] the pointer it returned). *)
Inductive glfw_call :=
| glfwCreateWindow (width height : Z) (title monitor share window : ptr)
| glfwMakeContextCurrent (window : ptr)
| glfwSwapBuffers (window : ptr)
| glfwPollEvents
| glfwDestroyWindow (window : ptr)
| glfwWindowShouldClose (window : ptr).

Record gl_window_listener := {
  listener_context : ptr
}.

(** [class gl_window]; the renderer is set or null. *)
Record gl_window := {
  _renderer : bool;
  context : ptr;
  event_listener : gl_window_listener
}.

(** A window not yet created: the default member initialisers. *)
Definition new_gl_window : gl_window :=
  {| _renderer := false; context := nullptr;
     event_listener := {| listener_context := nullptr |} |}.

(** A window and the calls made to GLFW so far. *)
Definition world : Type := gl_window * list glfw_call.

(** [create]: [created] is what [glfwCreateWindow] returns (null when it
    fails). *)
Definition create (width height : Z) (title monitor share : ptr)
    (created : ptr) (w : world) : world :=
  ({| _renderer := _renderer w.1; context := created;
      event_listener := {| listener_context := created |} |},
   w.2 ++ [glfwCreateWindow width height title monitor share created]).

Definition make_context_current (w : world) : world :=
  (w.1, w.2 ++ [glfwMakeContextCurrent (context w.1)]).

Definition swap_buffers (w : world) : world :=
  (w.1, w.2 ++ [glfwSwapBuffers (context w.1)]).

Definition handle_events (w : world) : world :=
  (w.1, w.2 ++ [glfwPollEvents]).

(** [gl_window_listener::should_close] on the window's listener. *)
Definition should_close (w : world) : world :=
  (w.1, w.2 ++ [glfwWindowShouldClose
                  (listener_context (event_listener w.1))]).

Definition destroy (w : world) : world :=
  (w.1, w.2 ++ [glfwDestroyWindow (context w.1)]).

(** [~gl_window()]. *)
Definition destructor (w : world) : world :=
  (w.1, w.2 ++ [glfwDestroyWindow (context w.1)]).

Definition set_renderer (w : world) : world :=
  ({| _renderer := true; context := context w.1;
      event_listener := event_listener w.1 |}, w.2).

(** The operations on an existing window object, up to its destructor. *)
Inductive operation :=
| op_create (width height : Z) (title monitor share created : ptr)
| op_make_context_current
| op_swap_buffers
| op_handle_events
| op_should_close
| op_destroy
| op_set_renderer.

Definition apply (o : operation) (w : world) : world :=
  match o with
  | op_create width height title monitor share created =>
      create width height title monitor share created w
  | op_make_context_current => make_context_current w
  | op_swap_buffers => swap_buffers w
  | op_handle_events => handle_events w
  | op_should_close => should_close w
  | op_destroy => destroy w
  | op_set_renderer => set_renderer w
  end.

(** A sequence of operations, left to right. *)
Definition apply_all (ops : list operation) (w : world) : world :=
  foldl (fun w o => apply o w) w ops.

(** The window a call to GLFW is given, when it takes one. *)
Definition window_argument (c : glfw_call) : option ptr :=
  match c with
  | glfwCreateWindow _ _ _ _ _ _ => None
  | glfwMakeContextCurrent window => Some window
  | glfwSwapBuffers window => Some window
  | glfwPollEvents => None
  | glfwDestroyWindow window => Some window
  | glfwWindowShouldClose window => Some window
  end.

(** What the latest [glfwCreateWindow] among the calls returned; null
    when there was none. *)
Definition latest_window (calls : list glfw_call) : ptr :=
  foldl (fun p c =>
           match c with
           | glfwCreateWindow _ _ _ _ _ window => window
           | _ => p
           end) nullptr calls.

Definition is_create (o : operation) : bool :=
  match o with
  | op_create _ _ _ _ _ _ => true
  | _ => false
  end.

End glwindow.

(** What holds of a window and its calls after any operations. *)
Definition window_inv (w : glwindow.world) : Prop :=
  glwindow.listener_context (glwindow.event_listener w.1)
  = glwindow.context w.1
  /\ glwindow.context w.1 = glwindow.latest_window w.2
  /\ forall before c after window,
       w.2 = before ++ c :: after ->
       glwindow.window_argument c = Some window ->
       window = glwindow.latest_window before.

(** * Properties *)

(** A computation returns normally as soon as the first component of its
    result is [Normal]; the machine it leaves is the second component. *)
Lemma returns_from_fst {G A} (c : M G A) (m : machine G) (a : A) :
  (c m).1 = Normal a -> c m = (Normal a, (c m).2).
Proof. destruct (c m) as [r m']. cbn. by intros ->. Qed.

Lemma bind_unfold {G A B} (c : M G A) (k : A -> M G B) (m : machine G) :
  (c ≫= k) m =
  match c m with
  | (Normal a, m') => k a m'
  | (Thrown e, m') => (Thrown e, m')
  | (Undefined, m') => (Undefined, m')
  end.
Proof. reflexivity. Qed.

Lemma run_unfold {G} `{!GLDriver G} (c : call) :
  run c =
  match c with
  | call_set_path p => set_path p
  | call_load_file async => load_file async
  | call_set_content v f => set_content v f
  | call_compile_shader => compile_shader
  | call_link_shader => link_shader
  | call_destructor => destructor
  | call_full_load_shader async_load => loader.full_load_shader async_load
  | call_compiler_compile_shader => link_shader
  | call_log_compilation_status => compiler.log_compilation_status
  end.
Proof. by destruct c. Qed.

(** Settles [exists m', c m = (Normal a, m') /\ ...] for straight-line
    code: the machine is the one the computation leaves, and the facts
    about it are decided by evaluation on the symbolic machine. *)
Ltac returns :=
  lazymatch goal with
  | |- exists m', ?c ?m = (Normal ?a, m') /\ _ =>
      exists (c m).2; split;
      [apply returns_from_fst; vm_compute; reflexivity|]
  end.

Ltac evaluated := repeat split; vm_compute; reflexivity.

(** Unfolds the monad on short pieces of code. *)
Ltac exec :=
  cbv [mbind mret M_bind M_ret bind ret throw emit update update_this
       gl_call gl_do get_machine];
  cbn [fst snd this heap files gl trace detached
       with_this with_heap with_gl with_trace with_detached].

(** ** The state written by each operation *)

Lemma get_shader_state_set_state s sh :
  get_shader_state (set_state s sh) = Some s.
Proof. by destruct s. Qed.

(** C1, as the code has it: [set_path], [set_content], [compile_shader],
    [link_shader] and the destructor have no precondition.  From every
    machine, whatever the state of its program, each returns normally and
    stores its own state (FOUND_PATH, CONTENT, COMPILED, LINKED, DESTROYED).
    When the state before the call is the one the specification requires,
    the transition made is an edge of the specification's state machine. *)
Theorem operations_store_their_state_from_any_state
    {G} `{!GLDriver G} (m : machine G) :
  (forall p, exists m', set_path p m = (Normal tt, m')
     /\ get_shader_state (this m') = Some FOUND_PATH)
  /\ (forall v f, exists m', set_content v f m = (Normal tt, m')
     /\ get_shader_state (this m') = Some CONTENT)
  /\ (exists m', compile_shader m = (Normal tt, m')
     /\ get_shader_state (this m') = Some COMPILED)
  /\ (exists m', link_shader m = (Normal tt, m')
     /\ get_shader_state (this m') = Some LINKED)
  /\ (exists m', destructor m = (Normal tt, m')
     /\ get_shader_state (this m') = Some DESTROYED)
  /\ (forall s p v f,
        (spec_requires (call_set_path p) s = true ->
           spec_edge s FOUND_PATH = true)
        /\ (spec_requires (call_set_content v f) s = true ->
              spec_edge s CONTENT = true)
        /\ (spec_requires call_compile_shader s = true ->
              spec_edge s COMPILED = true)
        /\ (spec_requires call_link_shader s = true ->
              spec_edge s LINKED = true)
        /\ (spec_requires call_destructor s = true ->
              spec_edge s DESTROYED = true)).
Proof.
  split; [intros p; returns; evaluated|].
  split; [intros v f; returns; evaluated|].
  split; [returns; evaluated|].
  split; [returns; evaluated|].
  split; [returns; evaluated|].
  intros s p v f. repeat split; by destruct s.
Qed.

(** C1, the counterexample: on a program in state CONTENT, which is not the
    state the specification requires of [set_path], the call returns
    normally and moves the program from CONTENT to FOUND_PATH, which is no
    edge of the specification's state machine. *)
Lemma set_path_out_of_order_returns :
  let m1 := (set_content 7%N 8%N (initial_machine ∅ ∅ ref_gl_init)).2 in
  let p := {| vertex_shader := 10%N; fragment_shader := 20%N |} in
  get_shader_state (this m1) = Some CONTENT
  /\ spec_requires (call_set_path p) CONTENT = false
  /\ (run (call_set_path p) m1).1 = Normal tt
  /\ get_shader_state (this (run (call_set_path p) m1).2) = Some FOUND_PATH
  /\ spec_edge CONTENT FOUND_PATH = false.
Proof. repeat split. Qed.

(** ** Compilation and the compile log *)

Lemma fresh_address_spec (h : gmap N (list cell)) :
  let p : ptr := fresh ({[nullptr]} ∪ dom h) in p <> nullptr /\ h !! p = None.
Proof.
  intros p. pose proof (is_fresh ({[nullptr]} ∪ dom h)) as Hf. fold p in Hf.
  split; [set_solver|]. apply not_elem_of_dom. set_solver.
Qed.

Lemma snoc_all {A} (l evs : list A) :
  foldl (fun acc e => acc ++ [e]) l evs = l ++ evs.
Proof.
  revert l. induction evs as [|e evs IH]; intros l; cbn.
  - by rewrite app_nil_r.
  - by rewrite IH, <- app_assoc.
Qed.

(** Settles [trace (c m).2 = trace m ++ calls] by evaluation: events are
    appended one at a time, so the right-hand side is put in that shape
    first. *)
Ltac trace_evaluated := rewrite <- snoc_all; vm_compute; reflexivity.

(** What the driver leaves in a non-empty array is a terminated string. *)
Lemma c_str_info_log_written n log buf :
  c_str (info_log_written (S n) log buf)
  = Some (extract_until_NUL n log).
Proof.
  unfold info_log_written. generalize (drop (S (length (take n log))) buf).
  revert log. induction n as [|n IH]; intros [|c log] rest; cbn;
    try (by case_decide).
  case_decide; [done|]. by rewrite IH.
Qed.

Section CompileLog.
Context {G : Type} `{!GLDriver G}.

(** The report on one stage.  How it ends is decided by what the driver
    answers: it returns for a stage reported compiled, and for a stage
    reported not compiled with a log length above zero; a negative log
    length throws in [new], and a log length of zero leaves [printf]
    reading an array of no characters.  Whenever it returns or throws the
    memory is as before (the temporary array is freed again); the program
    and the detached threads are never touched; and the first two things
    it does are to ask for the compile status and to print the line that
    tells it. *)
Lemma log_stage_status_frame id stage (m : machine G) :
  let r := compiler.log_stage_status id stage m in
  let status := glGetShaderiv id GL_COMPILE_STATUS (gl m) in
  let len := (glGetShaderiv id GL_INFO_LOG_LENGTH status.2).1 in
  r.1 = (if decide (status.1 = GL_FALSE) then
           if decide (len < 0)%Z then Thrown bad_array_new_length
           else if decide (len = 0)%Z then Undefined
           else Normal tt
         else Normal tt)
  /\ (status.1 <> GL_FALSE -> gl r.2 = status.2)
  /\ this r.2 = this m /\ detached r.2 = detached m /\ files r.2 = files m
  /\ heap m ⊆ heap r.2
  /\ (r.1 <> Undefined -> heap r.2 = heap m)
  /\ exists rest,
       trace r.2 =
       trace m ++
       gl_GetShaderiv id GL_COMPILE_STATUS status.1
       :: printf (if decide (status.1 = GL_FALSE)
                  then "SHADER_COMPILATION_ERROR for " +:+ stage
                       +:+ " shader" +:+ compiler.newline
                  else "SHADER_STATUS for " +:+ stage +:+ " shader: GOOD"
                       +:+ compiler.newline)
       :: rest.
Proof.
  cbn zeta. destruct m as [sh h fs g t d].
  unfold compiler.log_stage_status. exec.
  destruct (glGetShaderiv id GL_COMPILE_STATUS g) as [status g1].
  cbn [fst snd]. case_decide as Hstatus.
  2: { cbn. repeat split; try done. eexists.
       by rewrite <- app_assoc. }
  cbn [fst snd gl trace with_trace with_gl].
  destruct (glGetShaderiv id GL_INFO_LOG_LENGTH g1) as [len g2].
  cbn [fst snd]. unfold new_char_array_int. case_decide as Hneg.
  { cbn. repeat split; try done. eexists.
    by rewrite <- !app_assoc. }
  unfold new_char_array. exec.
  destruct (fresh_address_spec h) as [Hp0 Hp].
  set (p := fresh ({[nullptr]} ∪ dom h)) in *.
  destruct (glGetShaderInfoLog id len g2) as [log g3]. cbn [fst snd].
  rewrite insert_insert_eq.
  unfold c_str_at. rewrite decide_False by done. rewrite lookup_insert_eq.
  case_decide as Hzero.
  - subst len. cbn. repeat split; try done.
    + by apply insert_subseteq.
    + eexists. by rewrite <- !app_assoc.
  - assert (exists n, Z.to_nat len = S n) as [n ->]
      by (exists (Z.to_nat (len - 1)); lia).
    rewrite c_str_info_log_written.
    unfold delete_char_array. exec. rewrite decide_False by done.
    rewrite lookup_insert_eq. exec. rewrite delete_insert_eq, delete_id by done.
    repeat split; try done.
    eexists. by rewrite <- !app_assoc.
Qed.

(** The same for the two reports of [log_compilation_status]: the query
    never touches the program, the detached threads or the files; it
    leaves the memory as it was whenever it returns or throws; it starts
    by asking for the compile status of the vertex stage and printing the
    line that tells it; and it returns when the driver reports both stages
    compiled. *)
Lemma log_compilation_status_frame (m : machine G) :
  let l := compiler.log_compilation_status m in
  let vid := vertex_shader_id (this m) in
  let fid := fragment_shader_id (this m) in
  let status := glGetShaderiv vid GL_COMPILE_STATUS (gl m) in
  this l.2 = this m /\ detached l.2 = detached m /\ files l.2 = files m
  /\ heap m ⊆ heap l.2
  /\ (l.1 <> Undefined -> heap l.2 = heap m)
  /\ (exists rest,
        trace l.2 =
        trace m ++
        gl_GetShaderiv vid GL_COMPILE_STATUS status.1
        :: printf (if decide (status.1 = GL_FALSE)
                   then "SHADER_COMPILATION_ERROR for vertex shader"
                        +:+ compiler.newline
                   else "SHADER_STATUS for vertex shader: GOOD"
                        +:+ compiler.newline)
        :: rest)
  /\ (status.1 <> GL_FALSE ->
      (glGetShaderiv fid GL_COMPILE_STATUS status.2).1 <> GL_FALSE ->
      l.1 = Normal tt).
Proof.
  cbn zeta. unfold compiler.log_compilation_status.
  rewrite bind_unfold. cbn [get_machine]. rewrite bind_unfold.
  unfold get_vertex_shader_id, get_fragment_shader_id.
  destruct (log_stage_status_frame (vertex_shader_id (this m)) "vertex" m)
    as (Hr1 & Hgl1 & Hthis1 & Hd1 & Hf1 & Hsub1 & Hheap1 & rest1 & Ht1).
  destruct (compiler.log_stage_status (vertex_shader_id (this m)) "vertex" m)
    as [[[]| |] m1] eqn:Hstage1; cbn [fst snd] in *.
  2, 3: repeat split; try done; eauto; intros Hv; by rewrite decide_False in Hr1.
  destruct (log_stage_status_frame (fragment_shader_id (this m)) "fragment"
              m1)
    as (Hr2 & Hgl2 & Hthis2 & Hd2 & Hf2 & Hsub2 & Hheap2 & rest2 & Ht2).
  split; [congruence|]. split; [congruence|]. split; [congruence|].
  split; [by etrans|].
  split; [intros Hdef; rewrite Hheap2 by done; by apply Hheap1|].
  split.
  - eexists. rewrite Ht2, Ht1, <- app_assoc. reflexivity.
  - intros Hv Hf. rewrite Hr2, Hgl1 by done. by rewrite decide_False.
Qed.


End CompileLog.

(** An instance on the reference driver, which rejects an empty source:
    both contents are the empty string, the driver reports GL_FALSE for the
    vertex stage, the program is in state COMPILED all the same, and the
    log query, which returns, prints the error line first. *)
Example compile_shader_with_a_rejected_source :
  let m0 := (set_content 40%N 40%N
               (initial_machine (<[40%N := literal EmptyString]> ∅) ∅
                  ref_gl_init)).2 in
  let c := compile_shader m0 in
  let l := compiler.log_compilation_status c.2 in
  c.1 = Normal tt
  /\ (glGetShaderiv (vertex_shader_id (this c.2)) GL_COMPILE_STATUS
        (gl c.2)).1 = GL_FALSE
  /\ get_shader_state (this c.2) = Some COMPILED
  /\ l.1 = Normal tt
  /\ heap l.2 = heap c.2
  /\ drop (length (trace c.2)) (trace l.2) !! 1%nat
     = Some (printf ("SHADER_COMPILATION_ERROR for vertex shader"
                     +:+ compiler.newline))
  /\ drop (length (trace c.2)) (trace l.2) !! 5%nat
     = Some (printf ("INFO_LOG:" +:+ compiler.newline +:+ "no source"
                     +:+ compiler.newline)).
Proof. vm_compute. repeat split. Qed.

(** X20: how [log_compilation_status] ends when the driver reports the
    vertex stage as not compiled depends on the log length the driver then
    reports: a negative length throws [std::bad_array_new_length] from
    [new char[param]]; a length of zero has no defined behaviour ([printf]
    is given an array of no characters to read a string from).  Whenever
    the query returns or throws, the memory, the program, the files and
    the detached threads are as they were before it: the temporary array
    has been freed again. *)
Theorem log_compilation_status_on_a_failed_vertex_stage
    {G} `{!GLDriver G} (m : machine G) :
  let vid := vertex_shader_id (this m) in
  let status := glGetShaderiv vid GL_COMPILE_STATUS (gl m) in
  let len := (glGetShaderiv vid GL_INFO_LOG_LENGTH status.2).1 in
  let l := compiler.log_compilation_status m in
  status.1 = GL_FALSE ->
  ((len < 0)%Z -> l.1 = Thrown bad_array_new_length)
  /\ (len = 0%Z -> l.1 = Undefined)
  /\ (l.1 <> Undefined ->
      heap l.2 = heap m /\ this l.2 = this m
      /\ files l.2 = files m /\ detached l.2 = detached m).
Proof.
  intros vid status len l Hstatus.
  destruct (log_compilation_status_frame m)
    as (Hthis & Hd & Hf & _ & Hheap & _).
  assert (Hfirst : (len <= 0)%Z ->
            l.1 = if decide (len < 0)%Z then Thrown bad_array_new_length
                  else Undefined).
  { intros Hlen. subst l. unfold compiler.log_compilation_status.
    rewrite bind_unfold. cbn [get_machine]. rewrite bind_unfold.
    unfold get_vertex_shader_id.
    destruct (log_stage_status_frame (vertex_shader_id (this m)) "vertex" m)
      as (Hr & _).
    destruct (compiler.log_stage_status (vertex_shader_id (this m)) "vertex"
                m) as [r m1].
    cbn [fst] in Hr. fold vid status len in Hr.
    rewrite decide_True in Hr by done. subst r.
    case_decide; [done|]. by rewrite decide_True by lia. }
  split; [intros Hlen; rewrite Hfirst by lia; by rewrite decide_True|].
  split; [intros Hlen; rewrite Hfirst by lia; by rewrite decide_False by lia|].
  intros Hdef. split; [by apply Hheap|done].
Qed.

(** On a driver that answers 0 to every query, the log query of a fresh
    program has no defined behaviour. *)
Lemma log_compilation_status_on_a_failed_vertex_stage_witness :
  let m := initial_machine ∅ ∅ failing_gl_state in
  let vid := vertex_shader_id (this m) in
  let status := glGetShaderiv vid GL_COMPILE_STATUS (gl m) in
  let len := (glGetShaderiv vid GL_INFO_LOG_LENGTH status.2).1 in
  let l := compiler.log_compilation_status m in
  ((len < 0)%Z -> l.1 = Thrown bad_array_new_length)
  /\ (len = 0%Z -> l.1 = Undefined)
  /\ (l.1 <> Undefined ->
      heap l.2 = heap m /\ this l.2 = this m
      /\ files l.2 = files m /\ detached l.2 = detached m).
Proof.
  intros m.
  apply (log_compilation_status_on_a_failed_vertex_stage m). reflexivity.
Defined.

(** C8: [compiler::compile_shader] is [link_shader]: the two are the same
    computation, it returns normally with the program in state LINKED, and
    none of the driver calls it adds to the trace is a [glCompileShader]. *)
Theorem compiler_compile_shader_only_links {G} `{!GLDriver G} (m : machine G) :
  compiler.compile_shader m = link_shader m
  /\ exists m' calls,
       compiler.compile_shader m = (Normal tt, m')
       /\ get_shader_state (this m') = Some LINKED
       /\ trace m' = trace m ++ calls
       /\ Forall (fun e => forall id, e <> gl_CompileShader id) calls.
Proof.
  split; [reflexivity|].
  exists (link_shader m).2, (drop (length (trace m)) (trace (link_shader m).2)).
  split; [apply returns_from_fst; vm_compute; reflexivity|].
  split; [vm_compute; reflexivity|].
  assert (Htrace : exists calls,
             trace (link_shader m).2 = trace m ++ calls
             /\ Forall (fun e => forall id, e <> gl_CompileShader id) calls).
  { cbv [link_shader]. exec. rewrite <- !app_assoc. eexists.
    split; [reflexivity|]. cbn [app]. repeat constructor; discriminate. }
  destruct Htrace as (calls & -> & Hcalls).
  by rewrite drop_app_length.
Qed.

(** ** Equality of paths *)

Lemma shader_paths_eq_spec l r :
  shader_paths_eq l r = true <->
  vertex_shader l = vertex_shader r /\ fragment_shader l = fragment_shader r.
Proof.
  unfold shader_paths_eq.
  rewrite andb_true_iff, !bool_decide_eq_true. tauto.
Qed.

Lemma shader_paths_eq_null p :
  shader_paths_eq p null_shader_path = true <->
  vertex_shader p = nullptr /\ fragment_shader p = nullptr.
Proof. apply shader_paths_eq_spec. Qed.

Lemma full_load_shader_unfold {G} `{!GLDriver G} (m : machine G) async_load :
  loader.full_load_shader async_load m =
  if bool_decide (vertex_shader (paths (this m)) = nullptr
                  /\ fragment_shader (paths (this m)) = nullptr)
  then (compile_shader;; link_shader) m
  else (load_file async_load;; compile_shader;; link_shader) m.
Proof.
  unfold loader.full_load_shader, get_shader_paths.
  cbv [mbind M_bind bind get_machine].
  case_bool_decide as Hnull.
  - apply shader_paths_eq_null in Hnull. rewrite Hnull. reflexivity.
  - destruct (shader_paths_eq _ _) eqn:Heq.
    + apply shader_paths_eq_null in Heq. contradiction.
    + by destruct async_load.
Qed.

(** C9: [operator==] on [shader_paths] holds exactly when the two vertex
    pointers are the same address and the two fragment pointers are the
    same address.  Paths that differ in an address compare unequal even
    when the strings at the addresses are equal.  So [full_load_shader]
    leaves the load out exactly when both stored pointers are null, and
    runs it before compiling otherwise. *)
Theorem shader_paths_eq_is_pointer_identity :
  (forall l r,
     shader_paths_eq l r = true <->
     vertex_shader l = vertex_shader r
     /\ fragment_shader l = fragment_shader r)
  /\ (forall (h : gmap N (list cell)) l r,
        vertex_shader l <> vertex_shader r
        \/ fragment_shader l <> fragment_shader r ->
        c_str_at h (vertex_shader l) = c_str_at h (vertex_shader r) ->
        c_str_at h (fragment_shader l) = c_str_at h (fragment_shader r) ->
        shader_paths_eq l r = false)
  /\ (forall G (D : GLDriver G) (m : machine G) async_load,
        loader.full_load_shader async_load m =
        if bool_decide (vertex_shader (paths (this m)) = nullptr
                        /\ fragment_shader (paths (this m)) = nullptr)
        then (compile_shader;; link_shader) m
        else (load_file async_load;; compile_shader;; link_shader) m).
Proof.
  split; [exact shader_paths_eq_spec|]. split.
  - intros h l r Hne _ _. apply not_true_is_false.
    rewrite shader_paths_eq_spec. tauto.
  - intros G D m async_load. apply full_load_shader_unfold.
Qed.

(** Two copies of the same file name at different addresses: the paths are
    unequal. *)
Lemma shader_paths_eq_is_pointer_identity_witness :
  shader_paths_eq {| vertex_shader := 10%N; fragment_shader := 20%N |}
                  {| vertex_shader := 30%N; fragment_shader := 20%N |}
  = false.
Proof.
  apply (proj1 (proj2 shader_paths_eq_is_pointer_identity)
           (<[10%N := literal "v.glsl"]>
              (<[20%N := literal "f.glsl"]>
                 (<[30%N := literal "v.glsl"]> ∅)))).
  - left. simpl. discriminate.
  - vm_compute. reflexivity.
  - reflexivity.
Defined.

(** ** The frame timer *)

Lemma now_fits_the_mantissa count :
  glfw_time.rep_range count ->
  (Z.abs (Z.quot count glfw_time.nanoseconds_period_den) < 2 ^ 53)%Z.
Proof.
  unfold glfw_time.rep_range, glfw_time.nanoseconds_period_den.
  intros Hr.
  destruct (Z.le_gt_cases 0 count) as [Hpos|Hneg].
  - rewrite Z.quot_div_nonneg by lia.
    rewrite Z.abs_eq by (apply Z.div_pos; lia).
    apply Z.div_lt_upper_bound; lia.
  - rewrite <- (Z.opp_involutive count), Z.quot_opp_l by lia.
    rewrite Z.abs_opp, Z.quot_div_nonneg by lia.
    rewrite Z.abs_eq by (apply Z.div_pos; lia).
    apply Z.div_lt_upper_bound; lia.
Qed.

(** C10: [now] is a whole number [k] of seconds, the clock's count
    truncated to the second ([count] and [k] seconds differ by less than one
    second).  The [deltaTime] stored by [render] is therefore the whole
    number [k1 - k0] of seconds, and it is zero whenever the two clock
    readings fall within the same second, however far apart they are within
    it. *)
Theorem now_and_deltaTime_are_whole_seconds :
  (forall count, exists k : Z,
      glfw_time.now count = glfw_time.long_double_of_integer k
      /\ (Z.abs (count - k * glfw_time.nanoseconds_period_den)
          < glfw_time.nanoseconds_period_den)%Z)
  /\ (forall renderer count_before count_after g, exists k : Z,
        glfw_time.deltaTime
          (glfw_time.render renderer count_before count_after g)
        = glfw_time.long_double_of_integer k
        /\ k = (Z.quot count_after glfw_time.nanoseconds_period_den
                - Z.quot count_before glfw_time.nanoseconds_period_den)%Z)
  /\ (forall renderer count_before count_after g,
        Z.quot count_before glfw_time.nanoseconds_period_den
        = Z.quot count_after glfw_time.nanoseconds_period_den ->
        glfw_time.deltaTime
          (glfw_time.render renderer count_before count_after g)
        = glfw_time.long_double_of_integer 0).
Proof.
  assert (Hsub : forall a b : Z,
             (Qc_of_Z a - Qc_of_Z b)%Qc = Qc_of_Z (a - b)).
  { intros a b. unfold Qcminus.
    by rewrite <- Z2Qc_inj_opp, <- Z2Qc_inj_add. }
  split; [|split].
  - intros count. eexists. split; [reflexivity|].
    unfold glfw_time.nanoseconds_period_den.
    pose proof (Z.quot_rem' count 1000000000) as Hqr.
    pose proof (Z.rem_bound_abs count 1000000000) as Hb.
    lia.
  - intros renderer c0 c1 g. eexists. split; [|reflexivity].
    unfold glfw_time.render, glfw_time.set_deltaTime, glfw_time.now,
      glfw_time.long_double_of_integer. cbn [glfw_time.deltaTime].
    apply Hsub.
  - intros renderer c0 c1 g Heq.
    unfold glfw_time.render, glfw_time.set_deltaTime, glfw_time.now,
      glfw_time.long_double_of_integer. cbn [glfw_time.deltaTime].
    rewrite Hsub, Heq. f_equal. lia.
Qed.

(** Two readings almost a second apart, within the same second. *)
Lemma now_and_deltaTime_are_whole_seconds_witness :
  glfw_time.deltaTime
    (glfw_time.render None 5000000000%Z 5999999999%Z
       {| glfw_time.deltaTime := glfw_time.long_double_of_integer 0 |})
  = glfw_time.long_double_of_integer 0.
Proof.
  apply (proj2 (proj2 now_and_deltaTime_are_whole_seconds)).
  reflexivity.
Defined.

(** ** Loading the files *)

Section Loading.
Context {G : Type} `{!GLDriver G}.

Lemma load_stage_nullptr sc (m : machine G) :
  load_stage sc nullptr m = (Undefined, m).
Proof. reflexivity. Qed.

Lemma load_stage_no_string sc pth (m : machine G) :
  c_str_at (heap m) pth = None -> load_stage sc pth m = (Undefined, m).
Proof.
  intros Hn. unfold load_stage. cbv [mbind M_bind bind get_machine]. 
  rewrite Hn. reflexivity.
Qed.

Lemma load_stage_missing sc pth (m : machine G) name :
  c_str_at (heap m) pth = Some name ->
  files m !! string_of_list_ascii name = None ->
  load_stage sc pth m =
    (Thrown (filesystem_error (string_of_list_ascii name)
               no_such_file_or_directory),
     with_trace (trace m ++ [fstream_open (string_of_list_ascii name);
                             file_size (string_of_list_ascii name)]) m).
Proof.
  intros Hn Hf. unfold load_stage. cbv [mbind M_bind bind get_machine]. 
  rewrite Hn. exec. rewrite Hf. cbv [throw]. rewrite <- app_assoc. reflexivity.
Qed.

Lemma load_stage_reads sc pth (m : machine G) name f :
  c_str_at (heap m) pth = Some name ->
  files m !! string_of_list_ascii name = Some f ->
  let p : ptr := fresh ({[nullptr]} ∪ dom (heap m)) in
  let sz := length (file_data f) in
  load_stage sc pth m =
    (Normal tt,
     {| this := assign_ref sc p (this m);
        heap := <[p := istream_get (file_opens f) (file_data f) sz]> (heap m);
        files := files m; gl := gl m;
        trace := trace m ++ [fstream_open (string_of_list_ascii name);
                             file_size (string_of_list_ascii name);
                             operator_new_char sz p;
                             istream_get_into p sz];
        detached := detached m |}).
Proof.
  intros Hn Hf p sz. unfold load_stage. cbv [mbind M_bind bind get_machine]. 
  rewrite Hn. exec. rewrite Hf. unfold new_char_array. exec.
  fold p. rewrite insert_insert_eq. rewrite <- !app_assoc. reflexivity.
Qed.

Lemma c_str_at_insert_other (h : gmap N (list cell)) p q b s :
  c_str_at h q = Some s -> h !! p = None ->
  c_str_at (<[p := b]> h) q = Some s.
Proof.
  unfold c_str_at. intros Hs Hp. case_decide; [done|].
  destruct (h !! q) as [buf|] eqn:Hq; [|done].
  rewrite lookup_insert_ne by congruence.
  by rewrite Hq.
Qed.

Lemma load_file_sync_is_loader_func (m : machine G) :
  load_file false m =
  __loader_func vertex_content_ref fragment_content_ref
    (vertex_shader (paths (this m))) (fragment_shader (paths (this m))) m.
Proof. reflexivity. Qed.

Lemma load_file_sync_reads (m : machine G) vname vf fname ff :
  c_str_at (heap m) (vertex_shader (paths (this m))) = Some vname ->
  files m !! string_of_list_ascii vname = Some vf ->
  c_str_at (heap m) (fragment_shader (paths (this m))) = Some fname ->
  files m !! string_of_list_ascii fname = Some ff ->
  exists m' pv pf,
    load_file false m = (Normal tt, m')
    /\ pv <> nullptr /\ pf <> nullptr /\ pv <> pf
    /\ this m' =
         set_contents {| vertex_shader_content := pv;
                         fragment_shader_content := pf |} (this m)
    /\ heap m' !! pv =
         Some (istream_get (file_opens vf) (file_data vf)
                 (length (file_data vf)))
    /\ heap m' !! pf =
         Some (istream_get (file_opens ff) (file_data ff)
                 (length (file_data ff)))
    /\ files m' = files m /\ gl m' = gl m /\ detached m' = detached m.
Proof.
  intros Hv Hvf Hf Hff. rewrite load_file_sync_is_loader_func.
  unfold __loader_func. cbv [mbind M_bind bind].
  rewrite (load_stage_reads _ _ _ _ _ Hv Hvf).
  destruct (fresh_address_spec (heap m)) as [Hpv0 Hpv].
  set (pv := fresh ({[nullptr]} ∪ dom (heap m))) in *.
  set (m1 := {| this := _ |}).
  assert (Hf1 : c_str_at (heap m1) (fragment_shader (paths (this m)))
                = Some fname) by by apply c_str_at_insert_other.
  rewrite (load_stage_reads _ _ m1 _ _ Hf1 Hff).
  destruct (fresh_address_spec (heap m1)) as [Hpf0 Hpf].
  set (pf := fresh ({[nullptr]} ∪ dom (heap m1))) in *.
  assert (Hne : pv <> pf).
  { intros Heq. rewrite <- Heq in Hpf. subst m1. cbn [heap] in Hpf.
    by rewrite lookup_insert_eq in Hpf. }
  eexists _, pv, pf. split; [reflexivity|]. cbn [this heap files gl detached].
  repeat split; try done.
  - rewrite lookup_insert_ne by done. subst m1. cbn [heap].
    by rewrite lookup_insert_eq.
  - by rewrite lookup_insert_eq.
Qed.
End Loading.

(** C2, evaluated on the scenario: both files exist and open, the paths
    are set and the program is in state FOUND_PATH.  The synchronous load
    returns normally, and afterwards the program is still in state
    FOUND_PATH, not CONTENT; the vertex content is the file without its
    last character (the 13 characters of the file are [void main(){}], the
    string loaded has 12), and so is the fragment content. *)
Theorem load_file_sync_on_readable_files :
  let m0 := (set_path example_paths example_machine).2 in
  let r := load_file false m0 in
  get_shader_state (this m0) = Some FOUND_PATH
  /\ r.1 = Normal tt
  /\ get_shader_state (this r.2) = Some FOUND_PATH
  /\ file_data <$> files r.2 !! "v.glsl"
     = Some (list_ascii_of_string "void main(){}")
  /\ c_str_at (heap r.2) (vertex_shader_content (contents (this r.2)))
     = Some (list_ascii_of_string "void main(){")
  /\ file_data <$> files r.2 !! "f.glsl"
     = Some (list_ascii_of_string "void main(){ }")
  /\ c_str_at (heap r.2) (fragment_shader_content (contents (this r.2)))
     = Some (list_ascii_of_string "void main(){ ").
Proof. vm_compute. repeat split. Qed.

(** C3, the counterexample: the vertex file exists and the fragment path
    names no file.  The load throws the filesystem error of the missing
    path and the program stays in state FOUND_PATH, but its content is not
    what it was before the call: it was empty, and now the vertex content
    points to the array read from the vertex file. *)
Lemma load_file_sync_keeps_the_vertex_content :
  let m0 := (set_path example_paths_missing example_machine).2 in
  let r := load_file false m0 in
  r.1 = Thrown (filesystem_error "missing.glsl" no_such_file_or_directory)
  /\ get_shader_state (this r.2) = Some FOUND_PATH
  /\ content_populated (this m0) = false
  /\ content_populated (this r.2) = true
  /\ vertex_shader_content (contents (this r.2)) = 31%N
  /\ c_str_at (heap r.2) 31%N = Some (list_ascii_of_string "void main(){").
Proof. vm_compute. repeat split. Qed.

(** C3, as the code has it: when a source file does not exist the
    synchronous load throws [filesystem_error] with the path of the first
    missing file, and the state code of the program is what it was.  When
    it is the vertex file that is missing, the program and the memory are
    exactly as before the call.  When the vertex file exists and the
    fragment file is missing, the fragment content is as before the call
    and the vertex content is a new array holding what was read from the
    vertex file. *)
Theorem load_file_sync_missing_file
    {G} `{!GLDriver G} (m : machine G) vname :
  c_str_at (heap m) (vertex_shader (paths (this m))) = Some vname ->
  (files m !! string_of_list_ascii vname = None ->
     exists m',
       load_file false m =
         (Thrown (filesystem_error (string_of_list_ascii vname)
                    no_such_file_or_directory), m')
       /\ this m' = this m /\ heap m' = heap m)
  /\ (forall vf fname,
        files m !! string_of_list_ascii vname = Some vf ->
        c_str_at (heap m) (fragment_shader (paths (this m))) = Some fname ->
        files m !! string_of_list_ascii fname = None ->
        exists m' pv,
          load_file false m =
            (Thrown (filesystem_error (string_of_list_ascii fname)
                       no_such_file_or_directory), m')
          /\ _shader_state (this m') = _shader_state (this m)
          /\ pv <> nullptr /\ heap m !! pv = None
          /\ contents (this m') =
               {| vertex_shader_content := pv;
                  fragment_shader_content :=
                    fragment_shader_content (contents (this m)) |}
          /\ heap m' =
               <[pv := istream_get (file_opens vf) (file_data vf)
                         (length (file_data vf))]> (heap m)).
Proof.
  intros Hv. split.
  - intros Hmiss. rewrite load_file_sync_is_loader_func.
    unfold __loader_func. cbv [mbind M_bind bind].
    rewrite (load_stage_missing _ _ _ _ Hv Hmiss).
    eexists. split; [reflexivity|]. by split.
  - intros vf fname Hvf Hf Hmiss. rewrite load_file_sync_is_loader_func.
    unfold __loader_func. cbv [mbind M_bind bind].
    rewrite (load_stage_reads _ _ _ _ _ Hv Hvf).
    destruct (fresh_address_spec (heap m)) as [Hpv0 Hpv].
    set (pv := fresh ({[nullptr]} ∪ dom (heap m))) in *.
    set (m1 := {| this := _ |}).
    assert (Hf1 : c_str_at (heap m1) (fragment_shader (paths (this m)))
                  = Some fname) by by apply c_str_at_insert_other.
    rewrite (load_stage_missing _ _ m1 _ Hf1 Hmiss).
    eexists _, pv. split; [reflexivity|]. by repeat split.
Qed.

(** The scenario with the missing fragment file. *)
Lemma load_file_sync_missing_file_witness :
  let m0 := (set_path example_paths_missing example_machine).2 in
  exists m' pv,
    load_file false m0 =
      (Thrown (filesystem_error "missing.glsl" no_such_file_or_directory), m')
    /\ _shader_state (this m') = _shader_state (this m0)
    /\ pv <> nullptr /\ heap m0 !! pv = None
    /\ contents (this m') =
         {| vertex_shader_content := pv;
            fragment_shader_content :=
              fragment_shader_content (contents (this m0)) |}
    /\ heap m' =
         <[pv := istream_get true (list_ascii_of_string "void main(){}") 13]>
           (heap m0).
Proof.
  intros m0.
  apply (proj2 (load_file_sync_missing_file m0
                  (list_ascii_of_string "v.glsl") eq_refl)
           {| file_data := list_ascii_of_string "void main(){}";
              file_opens := true |}
           (list_ascii_of_string "missing.glsl")).
  - vm_compute. reflexivity.
  - vm_compute. reflexivity.
  - vm_compute. reflexivity.
Defined.

(** ** What each operation returns *)


Lemma set_path_returns {G} `{!GLDriver G} p (m : machine G) :
  exists m', set_path p m = (Normal tt, m')
    /\ get_shader_state (this m') = Some FOUND_PATH
    /\ paths (this m') = p
    /\ contents (this m') = contents (this m)
    /\ heap m' = heap m /\ files m' = files m /\ detached m' = detached m.
Proof. returns. evaluated. Qed.

Lemma set_content_returns {G} `{!GLDriver G} v f (m : machine G) :
  exists m', set_content v f m = (Normal tt, m')
    /\ get_shader_state (this m') = Some CONTENT
    /\ paths (this m') = paths (this m)
    /\ contents (this m') =
         {| vertex_shader_content := v; fragment_shader_content := f |}
    /\ heap m' = heap m /\ files m' = files m /\ detached m' = detached m.
Proof. returns. evaluated. Qed.

Lemma destructor_returns {G} `{!GLDriver G} (m : machine G) :
  exists m', destructor m = (Normal tt, m')
    /\ get_shader_state (this m') = Some DESTROYED
    /\ paths (this m') = paths (this m)
    /\ contents (this m') = contents (this m)
    /\ heap m' = heap m /\ files m' = files m /\ detached m' = detached m.
Proof. returns. evaluated. Qed.

Lemma compile_shader_returns {G} `{!GLDriver G} (m : machine G) :
  exists m', compile_shader m = (Normal tt, m')
    /\ get_shader_state (this m') = Some COMPILED
    /\ paths (this m') = paths (this m)
    /\ contents (this m') = contents (this m)
    /\ shader_id (this m') = shader_id (this m)
    /\ heap m' = heap m /\ files m' = files m /\ detached m' = detached m.
Proof. returns. evaluated. Qed.

Lemma link_shader_returns {G} `{!GLDriver G} (m : machine G) :
  exists m', link_shader m = (Normal tt, m')
    /\ get_shader_state (this m') = Some LINKED
    /\ paths (this m') = paths (this m)
    /\ contents (this m') = contents (this m)
    /\ shader_id (this m') = (glCreateProgram (gl m)).1
    /\ heap m' = heap m /\ files m' = files m /\ detached m' = detached m.
Proof. returns. evaluated. Qed.

(** ** What a sequence of operations can reach *)

Section Reachability.
Context {G : Type} `{!GLDriver G}.

Lemma load_stage_frame sc pth (m : machine G) :
  _shader_state (this (load_stage sc pth m).2) = _shader_state (this m)
  /\ paths (this (load_stage sc pth m).2) = paths (this m)
  /\ detached (load_stage sc pth m).2 = detached m.
Proof.
  destruct (c_str_at (heap m) pth) as [name|] eqn:Hn.
  - destruct (files m !! string_of_list_ascii name) as [f|] eqn:Hf.
    + rewrite (load_stage_reads _ _ _ _ _ Hn Hf). by destruct sc.
    + by rewrite (load_stage_missing _ _ _ _ Hn Hf).
  - by rewrite (load_stage_no_string _ _ _ Hn).
Qed.

Lemma loader_func_frame vsc fsc vpth fpth (m : machine G) :
  _shader_state (this (__loader_func vsc fsc vpth fpth m).2)
    = _shader_state (this m)
  /\ paths (this (__loader_func vsc fsc vpth fpth m).2) = paths (this m)
  /\ detached (__loader_func vsc fsc vpth fpth m).2 = detached m.
Proof.
  unfold __loader_func. cbv [mbind M_bind bind].
  pose proof (load_stage_frame vsc vpth m) as H1.
  destruct (load_stage vsc vpth m) as [[[]| |] m1]; cbn [snd] in *; try done.
  destruct (load_stage_frame fsc fpth m1) as (H2 & H3 & H4).
  destruct H1 as (H5 & H6 & H7). by rewrite H2, H3, H4.
Qed.

Lemma loader_func_nullptr vsc fsc fpth (m : machine G) :
  __loader_func vsc fsc nullptr fpth m = (Undefined, m).
Proof. reflexivity. Qed.

Lemma state_inv_not_EMPTY (m : machine G) s :
  get_shader_state (this m) = Some s -> s <> EMPTY -> state_inv m.
Proof. intros Hs Hne. split; [eauto|]. rewrite Hs. congruence. Qed.

Lemma state_inv_same (m m' : machine G) :
  state_inv m -> _shader_state (this m') = _shader_state (this m) ->
  (get_shader_state (this m) = Some EMPTY ->
     content_populated (this m') = false
      /\ paths (this m') = null_shader_path
      /\ null_tasks (detached m')) ->
  state_inv m'.
Proof.
  intros [Hs He] Hst Hrest. unfold state_inv, get_shader_state in *.
  rewrite Hst. auto.
Qed.

Lemma load_file_sync_preserves_inv r (m m' : machine G) :
  load_file false m = (r, m') -> r <> Undefined ->
  state_inv m -> state_inv m'.
Proof.
  rewrite load_file_sync_is_loader_func. intros Hrun Hr Hinv.
  pose proof (loader_func_frame vertex_content_ref fragment_content_ref
                (vertex_shader (paths (this m)))
                (fragment_shader (paths (this m))) m) as Hframe.
  rewrite Hrun in Hframe. cbn [snd] in Hframe.
  destruct Hframe as (Hst & Hp & Hd).
  apply (state_inv_same m); [done|done|].
  intros Hempty. destruct Hinv as [_ Hinv].
  destruct (Hinv Hempty) as (_ & Hnull & _).
  rewrite Hnull in Hrun. cbn [vertex_shader null_shader_path] in Hrun.
  rewrite loader_func_nullptr in Hrun. congruence.
Qed.

Lemma load_file_async_preserves_inv r (m m' : machine G) :
  load_file true m = (r, m') -> state_inv m -> state_inv m'.
Proof.
  intros Hrun Hinv. apply (f_equal snd) in Hrun. cbn [snd] in Hrun.
  subst m'. apply (state_inv_same m); [done|vm_compute; reflexivity|].
  intros Hempty. destruct Hinv as [_ Hinv].
  destruct (Hinv Hempty) as (Hc & Hnull & Hd).
  change (this (load_file true m).2) with (this m).
  split; [exact Hc|]. split; [exact Hnull|].
  change (detached (load_file true m).2)
    with (detached m ++ [[(vertex_content_ref, vertex_shader (paths (this m)));
                          (fragment_content_ref,
                           fragment_shader (paths (this m)))]]).
  apply Forall_app. split; [exact Hd|].
  rewrite Hnull. by repeat constructor.
Qed.

Lemma load_file_preserves_inv async r (m m' : machine G) :
  load_file async m = (r, m') -> r <> Undefined ->
  state_inv m -> state_inv m'.
Proof.
  destruct async; eauto using load_file_sync_preserves_inv,
    load_file_async_preserves_inv.
Qed.

Lemma compile_then_link_returns (m : machine G) :
  exists m', (compile_shader;; link_shader) m = (Normal tt, m')
    /\ get_shader_state (this m') = Some LINKED.
Proof.
  destruct (compile_shader_returns m) as (m2 & Hc & _).
  destruct (link_shader_returns m2) as (m3 & Hl & Hst & _).
  exists m3. split; [|done]. by rewrite bind_unfold, Hc, Hl.
Qed.

Lemma full_load_shader_preserves_inv async_load r (m m' : machine G) :
  loader.full_load_shader async_load m = (r, m') -> r <> Undefined ->
  state_inv m -> state_inv m'.
Proof.
  intros Hrun Hr Hinv.
  rewrite full_load_shader_unfold in Hrun. case_bool_decide as Hnull.
  - destruct (compile_then_link_returns m) as (m3 & Hcl & Hst).
    rewrite Hcl in Hrun. injection Hrun as _ <-.
    by apply (state_inv_not_EMPTY _ LINKED).
  - rewrite bind_unfold in Hrun.
    destruct (load_file async_load m) as [[[]| |] m1] eqn:Hload.
    + destruct (compile_then_link_returns m1) as (m3 & Hcl & Hst).
      rewrite Hcl in Hrun. injection Hrun as _ <-.
      by apply (state_inv_not_EMPTY _ LINKED).
    + injection Hrun as _ <-. by eapply load_file_preserves_inv.
    + congruence.
Qed.

Lemma returns_preserves_inv (c : M G unit) s r (m m' : machine G) :
  (forall m, exists m2, c m = (Normal tt, m2)
                        /\ get_shader_state (this m2) = Some s) ->
  s <> EMPTY -> c m = (r, m') -> state_inv m'.
Proof.
  intros Hc Hs Hrun. destruct (Hc m) as (m2 & Heq & Hst).
  rewrite Heq in Hrun. injection Hrun as _ <-.
  by apply (state_inv_not_EMPTY _ s).
Qed.

Lemma log_compilation_status_preserves_inv r (m m' : machine G) :
  compiler.log_compilation_status m = (r, m') ->
  state_inv m -> state_inv m'.
Proof.
  intros Hrun Hinv.
  destruct (log_compilation_status_frame m) as (Hthis & Hd & _).
  rewrite Hrun in Hthis, Hd. cbn [snd] in Hthis, Hd.
  apply (state_inv_same m); [done|by rewrite Hthis|].
  rewrite Hthis, Hd. by destruct Hinv as [_ Hinv].
Qed.

Lemma run_preserves_inv c r (m m' : machine G) :
  run c m = (r, m') -> r <> Undefined -> state_inv m -> state_inv m'.
Proof.
  intros Hrun Hr Hinv. rewrite run_unfold in Hrun. destruct c.
  - eapply (returns_preserves_inv _ FOUND_PATH); [|done|exact Hrun].
    intros m0. destruct (set_path_returns p m0) as (m2 & ? & ? & _). eauto.
  - by eapply load_file_preserves_inv.
  - eapply (returns_preserves_inv _ CONTENT); [|done|exact Hrun].
    intros m0.
    destruct (set_content_returns vertex_shader_content'
                fragment_shader_content' m0) as (m2 & ? & ? & _). eauto.
  - eapply (returns_preserves_inv _ COMPILED); [|done|exact Hrun].
    intros m0. destruct (compile_shader_returns m0) as (m2 & ? & ? & _). eauto.
  - eapply (returns_preserves_inv _ LINKED); [|done|exact Hrun].
    intros m0. destruct (link_shader_returns m0) as (m2 & ? & ? & _). eauto.
  - eapply (returns_preserves_inv _ DESTROYED); [|done|exact Hrun].
    intros m0. destruct (destructor_returns m0) as (m2 & ? & ? & _). eauto.
  - by eapply full_load_shader_preserves_inv.
  - eapply (returns_preserves_inv _ LINKED); [|done|exact Hrun].
    intros m0. destruct (link_shader_returns m0) as (m2 & ? & ? & _). eauto.
  - by eapply log_compilation_status_preserves_inv.
Qed.

Lemma worker_step_preserves_inv i r (m m' : machine G) :
  worker_step i m = (r, m') -> r <> Undefined ->
  state_inv m -> state_inv m'.
Proof.
  unfold worker_step. cbv [mbind M_bind bind get_machine mret M_ret ret].
  intros Hrun Hr Hinv.
  destruct (detached m !! i) as [[|[sc pth] rest]|] eqn:Hi.
  - injection Hrun as _ <-. apply (state_inv_same m); [done|done|].
    intros Hempty. destruct Hinv as [_ Hinv].
    destruct (Hinv Hempty) as (Hc & Hnull & Hd).
    split; [exact Hc|]. split; [exact Hnull|]. by apply Forall_delete.
  - cbv [update] in Hrun.
    set (m1 := with_detached (<[i:=rest]> (detached m)) m) in Hrun.
    destruct (load_stage_frame sc pth m1) as (Hst & Hp & Hd).
    rewrite Hrun in Hst, Hp, Hd. cbn [snd] in Hst, Hp, Hd.
    apply (state_inv_same m); [done|done|].
    intros Hempty. destruct Hinv as [_ Hinv].
    destruct (Hinv Hempty) as (_ & _ & Hnull).
    assert (Hpth : pth = nullptr).
    { unfold null_tasks in Hnull. rewrite Forall_lookup in Hnull.
      specialize (Hnull _ _ Hi). by inversion Hnull. }
    rewrite Hpth, load_stage_nullptr in Hrun. congruence.
  - by injection Hrun as _ <-.
Qed.

Lemma initial_machine_inv h fs (g : G) : state_inv (initial_machine h fs g).
Proof.
  split; [by exists EMPTY|]. intros _. by repeat split; try constructor.
Qed.

Lemma step_preserves_inv (m m' : machine G) :
  step m m' -> state_inv m -> state_inv m'.
Proof.
  intros [c m1 m2 Hrun|c e m1 m2 Hrun|i m1 m2 Hrun] Hinv.
  - by eapply run_preserves_inv.
  - by eapply run_preserves_inv.
  - by eapply worker_step_preserves_inv.
Qed.

Lemma reachable_inv (m : machine G) : reachable m -> state_inv m.
Proof.
  intros (h & fs & g & Hsteps). revert m Hsteps.
  apply (rtc_ind_r (fun m => state_inv m)).
  - apply initial_machine_inv.
  - intros m1 m2 _ Hstep IH. by eapply step_preserves_inv.
Qed.

Lemma reachable_initial h fs (g : G) : reachable (initial_machine h fs g).
Proof. by exists h, fs, g. Qed.

Lemma reachable_after c (m m' : machine G) :
  reachable m -> run c m = (Normal tt, m') -> reachable m'.
Proof.
  intros (h & fs & g & Hsteps) Hrun. exists h, fs, g.
  eapply rtc_r; [exact Hsteps|]. by eapply step_returns.
Qed.

End Reachability.

(** C4, the counterexample: [set_content] then [set_path] leaves a program
    in state FOUND_PATH whose content is populated, and [set_content] then
    the destructor leaves one in state DESTROYED whose content is
    populated. *)
Lemma content_populated_in_FOUND_PATH_and_in_DESTROYED :
  let m0 := initial_machine ∅ ∅ ref_gl_init in
  let a := (set_content 7%N 8%N;; set_path example_paths) m0 in
  let b := (set_content 7%N 8%N;; destructor) m0 in
  (reachable a.2
   /\ content_populated (this a.2) = true
   /\ get_shader_state (this a.2) = Some FOUND_PATH)
  /\ (reachable b.2
      /\ content_populated (this b.2) = true
      /\ get_shader_state (this b.2) = Some DESTROYED).
Proof.
  intros m0 a b.
  assert (Hc : reachable (set_content 7%N 8%N m0).2).
  { apply (reachable_after (call_set_content 7%N 8%N) m0);
      [apply reachable_initial | vm_compute; reflexivity]. }
  split; (split; [|split; vm_compute; reflexivity]).
  - apply (reachable_after (call_set_path example_paths) _ _ Hc).
    vm_compute. reflexivity.
  - apply (reachable_after call_destructor _ _ Hc).
    vm_compute. reflexivity.
Qed.

(** C4, as the code has it: on every machine a sequence of operations and
    of loader-thread stages produces, the content is populated only when
    the state is FOUND_PATH, CONTENT, COMPILED, LINKED or DESTROYED: never
    in state EMPTY. *)
Theorem content_populated_only_outside_EMPTY
    {G} `{!GLDriver G} (m : machine G) :
  reachable m -> content_populated (this m) = true ->
  get_shader_state (this m)
    ∈ [Some FOUND_PATH; Some CONTENT; Some COMPILED; Some LINKED;
       Some DESTROYED].
Proof.
  intros Hreach Hpop. destruct (reachable_inv m Hreach) as [[s Hs] Hinv].
  rewrite Hs in *. destruct s; [|by repeat constructor..].
  destruct (Hinv eq_refl) as (Hc & _). congruence.
Qed.

(** The scenario after a synchronous load. *)
Lemma content_populated_only_outside_EMPTY_witness :
  let m := ((set_path example_paths;; load_file false) example_machine).2 in
  get_shader_state (this m)
    ∈ [Some FOUND_PATH; Some CONTENT; Some COMPILED; Some LINKED;
       Some DESTROYED].
Proof.
  intros m. apply (content_populated_only_outside_EMPTY m).
  - apply (reachable_after (call_load_file false)
             (set_path example_paths example_machine).2).
    + apply (reachable_after (call_set_path example_paths) example_machine);
        [apply reachable_initial | vm_compute; reflexivity].
    + vm_compute. reflexivity.
  - vm_compute. reflexivity.
Defined.

(** ** Destruction while a load is in flight *)

(** ** What a synchronous load leaves in the content *)

Lemma extract_until_NUL_has_no_NUL budget data :
  Forall (fun c => c <> NUL) (extract_until_NUL budget data).
Proof.
  revert data. induction budget as [|b IH]; intros [|c rest]; cbn;
    try by constructor.
  case_decide; [by constructor|]. constructor; [done|apply IH].
Qed.

Lemma extract_until_NUL_of_text budget data :
  Forall (fun c => c <> NUL) data ->
  extract_until_NUL budget data = take budget data.
Proof.
  revert data. induction budget as [|b IH]; intros [|c rest] Hdata; cbn;
    try done.
  inversion Hdata as [|? ? Hc Hrest]; subst.
  case_decide; [done|]. by rewrite IH.
Qed.

Lemma c_str_terminated (s : list ascii) (rest : list (option ascii)) :
  Forall (fun c => c <> NUL) s ->
  c_str ((Some <$> s) ++ Some NUL :: rest) = Some s.
Proof.
  induction 1 as [|c s Hc _ IH]; cbn.
  - by case_decide.
  - case_decide; [done|]. by rewrite IH.
Qed.

Lemma c_str_istream_get opened data budget :
  c_str (istream_get opened data (S budget))
  = Some (if opened then extract_until_NUL budget data else []).
Proof.
  unfold istream_get. apply c_str_terminated.
  destruct opened; [apply extract_until_NUL_has_no_NUL|constructor].
Qed.

Lemma c_str_at_allocated (h : gmap N (list (option ascii))) p buf :
  p <> nullptr -> h !! p = Some buf -> c_str_at h p = c_str buf.
Proof. intros Hp Hbuf. unfold c_str_at. case_decide; [done|]. by rewrite Hbuf. Qed.

Lemma c_str_at_weaken (h h' : gmap N (list (option ascii))) p s :
  h ⊆ h' -> c_str_at h p = Some s -> c_str_at h' p = Some s.
Proof.
  unfold c_str_at. intros Hsub. case_decide; [done|].
  destruct (h !! p) as [buf|] eqn:Hp; [|done].
  by rewrite (lookup_weaken _ _ _ _ Hp Hsub).
Qed.

Section LoadedContent.
Context {G : Type} `{!GLDriver G}.

(** The synchronous load on two existing files, with all it changes: the
    two arrays are new (their addresses held nothing before), nothing else
    in memory moves, and the program only has its two content pointers
    replaced. *)
Lemma load_file_sync_allocates (m : machine G) vname vf fname ff :
  c_str_at (heap m) (vertex_shader (paths (this m))) = Some vname ->
  files m !! string_of_list_ascii vname = Some vf ->
  c_str_at (heap m) (fragment_shader (paths (this m))) = Some fname ->
  files m !! string_of_list_ascii fname = Some ff ->
  exists m' pv pf,
    load_file false m = (Normal tt, m')
    /\ pv <> nullptr /\ pf <> nullptr /\ pv <> pf
    /\ heap m !! pv = None /\ heap m !! pf = None
    /\ this m' =
         set_contents {| vertex_shader_content := pv;
                         fragment_shader_content := pf |} (this m)
    /\ heap m' =
         <[pf := istream_get (file_opens ff) (file_data ff)
                   (length (file_data ff))]>
           (<[pv := istream_get (file_opens vf) (file_data vf)
                      (length (file_data vf))]> (heap m))
    /\ files m' = files m /\ gl m' = gl m /\ detached m' = detached m.
Proof.
  intros Hv Hvf Hf Hff. rewrite load_file_sync_is_loader_func.
  unfold __loader_func. rewrite bind_unfold.
  rewrite (load_stage_reads _ _ _ _ _ Hv Hvf).
  destruct (fresh_address_spec (heap m)) as [Hpv0 Hpv].
  set (pv := fresh ({[nullptr]} ∪ dom (heap m))) in *.
  set (m1 := {| this := _ |}).
  assert (Hf1 : c_str_at (heap m1) (fragment_shader (paths (this m)))
                = Some fname) by by apply c_str_at_insert_other.
  rewrite (load_stage_reads _ _ m1 _ _ Hf1 Hff).
  destruct (fresh_address_spec (heap m1)) as [Hpf0 Hpf].
  set (pf := fresh ({[nullptr]} ∪ dom (heap m1))) in *.
  subst m1. cbn [heap] in Hpf. apply lookup_insert_None in Hpf as [Hpf Hne].
  eexists _, pv, pf. split; [reflexivity|]. cbn [this heap files gl detached].
  by repeat split.
Qed.

End LoadedContent.

Section LoadedContentTheorems.
Context {G : Type} `{!GLDriver G}.

Lemma c_str_istream_get_full opened data :
  c_str (istream_get opened data (length data))
  = if decide (data = []) then None
    else Some (if opened
               then extract_until_NUL (length data - 1) data else []).
Proof.
  destruct data as [|c rest]; [done|]. cbn [length].
  rewrite c_str_istream_get. case_decide; [done|].
  by replace (S (length rest) - 1) with (length rest) by lia.
Qed.

Lemma load_file_sync_strings (m : machine G) vname vf fname ff :
  c_str_at (heap m) (vertex_shader (paths (this m))) = Some vname ->
  files m !! string_of_list_ascii vname = Some vf ->
  c_str_at (heap m) (fragment_shader (paths (this m))) = Some fname ->
  files m !! string_of_list_ascii fname = Some ff ->
  exists m',
    load_file false m = (Normal tt, m')
    /\ c_str_at (heap m') (vertex_shader_content (contents (this m')))
       = (if decide (file_data vf = []) then None
          else Some (if file_opens vf
                     then extract_until_NUL (length (file_data vf) - 1)
                            (file_data vf)
                     else []))
    /\ c_str_at (heap m') (fragment_shader_content (contents (this m')))
       = (if decide (file_data ff = []) then None
          else Some (if file_opens ff
                     then extract_until_NUL (length (file_data ff) - 1)
                            (file_data ff)
                     else [])).
Proof.
  intros Hv Hvf Hf Hff.
  destruct (load_file_sync_allocates m _ _ _ _ Hv Hvf Hf Hff)
    as (m' & pv & pf & Hload & Hpv & Hpf & Hne & _ & _ & Hthis & Hheap & _).
  exists m'. split; [exact Hload|]. rewrite Hthis, Hheap. cbn.
  split.
  - rewrite (c_str_at_allocated _ pv
               (istream_get (file_opens vf) (file_data vf)
                  (length (file_data vf)))); [|done|].
    + apply c_str_istream_get_full.
    + by rewrite lookup_insert_ne, lookup_insert_eq.
  - rewrite (c_str_at_allocated _ pf
               (istream_get (file_opens ff) (file_data ff)
                  (length (file_data ff)))); [|done|].
    + apply c_str_istream_get_full.
    + by rewrite lookup_insert_eq.
Qed.

(** X1: the synchronous load of two existing files returns normally and
    leaves in each content pointer: nothing that is a string when the file
    is empty (the array has no element, hence no terminator); the empty
    string when the file is not empty and the stream did not open; and
    otherwise the characters of the file up to, and without, its first NUL
    or its last character, whichever comes first. *)
Theorem load_file_sync_content (m : machine G) vname vf fname ff :
  c_str_at (heap m) (vertex_shader (paths (this m))) = Some vname ->
  files m !! string_of_list_ascii vname = Some vf ->
  c_str_at (heap m) (fragment_shader (paths (this m))) = Some fname ->
  files m !! string_of_list_ascii fname = Some ff ->
  exists m',
    load_file false m = (Normal tt, m')
    /\ c_str_at (heap m') (vertex_shader_content (contents (this m')))
       = (if decide (file_data vf = []) then None
          else Some (if file_opens vf
                     then extract_until_NUL (length (file_data vf) - 1)
                            (file_data vf)
                     else []))
    /\ c_str_at (heap m') (fragment_shader_content (contents (this m')))
       = (if decide (file_data ff = []) then None
          else Some (if file_opens ff
                     then extract_until_NUL (length (file_data ff) - 1)
                            (file_data ff)
                     else [])).
Proof. apply load_file_sync_strings. Qed.

(** X2: when both files open and hold text (no NUL character), the content
    loaded from each is the file without its last character. *)
Theorem load_file_sync_drops_the_last_character
    (m : machine G) vname vf fname ff vtext vlast ftext flast :
  c_str_at (heap m) (vertex_shader (paths (this m))) = Some vname ->
  files m !! string_of_list_ascii vname = Some vf ->
  c_str_at (heap m) (fragment_shader (paths (this m))) = Some fname ->
  files m !! string_of_list_ascii fname = Some ff ->
  file_opens vf = true -> file_opens ff = true ->
  file_data vf = vtext ++ [vlast] -> file_data ff = ftext ++ [flast] ->
  Forall (fun c => c <> NUL) (file_data vf) ->
  Forall (fun c => c <> NUL) (file_data ff) ->
  exists m',
    load_file false m = (Normal tt, m')
    /\ c_str_at (heap m') (vertex_shader_content (contents (this m')))
       = Some vtext
    /\ c_str_at (heap m') (fragment_shader_content (contents (this m')))
       = Some ftext.
Proof.
  intros Hv Hvf Hf Hff Hvo Hfo Hvd Hfd Hvn Hfn.
  destruct (load_file_sync_strings m _ _ _ _ Hv Hvf Hf Hff)
    as (m' & Hload & Hvc & Hfc).
  assert (Hv1 : file_data vf <> []) by (rewrite Hvd; by destruct vtext).
  assert (Hf1 : file_data ff <> []) by (rewrite Hfd; by destruct ftext).
  exists m'. split; [exact Hload|].
  rewrite Hvc, Hfc, Hvo, Hfo, !decide_False by done.
  rewrite !extract_until_NUL_of_text by done. rewrite Hvd, Hfd.
  rewrite !length_app. cbn [length].
  replace (length vtext + 1 - 1) with (length vtext) by lia.
  replace (length ftext + 1 - 1) with (length ftext) by lia.
  by rewrite !take_app_length.
Qed.
End LoadedContentTheorems.

(** ** The one-shot pipeline, with a synchronous load *)

Section OneShot.
Context {G : Type} `{!GLDriver G}.

(** [compile_shader] then [link_shader], with all they do. *)
Lemma compile_then_link_spec (m : machine G) :
  exists m2 m3,
    compile_shader m = (Normal tt, m2)
    /\ link_shader m2 = (Normal tt, m3)
    /\ trace m3 =
         trace m ++
         [gl_CreateShader GL_VERTEX_SHADER (vertex_shader_id (this m3));
          gl_ShaderSource (vertex_shader_id (this m3))
            (c_str_at (heap m) (vertex_shader_content (contents (this m))));
          gl_CompileShader (vertex_shader_id (this m3));
          gl_CreateShader GL_FRAGMENT_SHADER (fragment_shader_id (this m3));
          gl_ShaderSource (fragment_shader_id (this m3))
            (c_str_at (heap m) (fragment_shader_content (contents (this m))));
          gl_CompileShader (fragment_shader_id (this m3));
          gl_CreateProgram (shader_id (this m3));
          gl_AttachShader (shader_id (this m3)) (vertex_shader_id (this m3));
          gl_AttachShader (shader_id (this m3))
            (fragment_shader_id (this m3));
          gl_LinkProgram (shader_id (this m3));
          gl_DeleteShader (vertex_shader_id (this m3));
          gl_DeleteShader (fragment_shader_id (this m3))]
    /\ get_shader_state (this m3) = Some LINKED
    /\ shader_id (this m3) = (glCreateProgram (gl m2)).1
    /\ paths (this m3) = paths (this m)
    /\ contents (this m3) = contents (this m)
    /\ heap m3 = heap m /\ files m3 = files m /\ detached m3 = detached m.
Proof.
  exists (compile_shader m).2, (link_shader (compile_shader m).2).2.
  split; [apply returns_from_fst; vm_compute; reflexivity|].
  split; [apply returns_from_fst; vm_compute; reflexivity|].
  split; [trace_evaluated|evaluated].
Qed.


End OneShot.



(** ** The destructor and the detached loader threads *)

Section Detached.
Context {G : Type} `{!GLDriver G}.

Lemma load_file_detached async (m : machine G) :
  detached m `prefix_of` detached (load_file async m).2.
Proof.
  destruct async.
  - by apply prefix_app_r.
  - rewrite load_file_sync_is_loader_func.
    by destruct (loader_func_frame vertex_content_ref fragment_content_ref
                   (vertex_shader (paths (this m)))
                   (fragment_shader (paths (this m))) m) as (_ & _ & ->).
Qed.

(** No operation takes a detached thread away: the threads that were
    detached before a call are there after it, in the same order and with
    the same stages left. *)
Lemma run_keeps_detached c (m : machine G) :
  detached m `prefix_of` detached (run c m).2.
Proof.
  rewrite run_unfold. destruct c.
  - destruct (set_path_returns p m) as (m' & Hc & _ & _ & _ & _ & _ & Hd).
    rewrite Hc. cbn [snd]. by rewrite Hd.
  - apply load_file_detached.
  - destruct (set_content_returns vertex_shader_content'
                fragment_shader_content' m)
      as (m' & Hc & _ & _ & _ & _ & _ & Hd).
    rewrite Hc. cbn [snd]. by rewrite Hd.
  - destruct (compile_shader_returns m)
      as (m' & Hc & _ & _ & _ & _ & _ & _ & Hd).
    rewrite Hc. cbn [snd]. by rewrite Hd.
  - destruct (link_shader_returns m)
      as (m' & Hc & _ & _ & _ & _ & _ & _ & Hd).
    rewrite Hc. cbn [snd]. by rewrite Hd.
  - destruct (destructor_returns m) as (m' & Hc & _ & _ & _ & _ & _ & Hd).
    rewrite Hc. cbn [snd]. by rewrite Hd.
  - rewrite full_load_shader_unfold. case_bool_decide.
    + destruct (compile_then_link_spec m)
        as (m2 & m3 & Hc & Hl & _ & _ & _ & _ & _ & _ & _ & Hd).
      rewrite bind_unfold, Hc, Hl. cbn [snd]. by rewrite Hd.
    + rewrite bind_unfold.
      pose proof (load_file_detached async_load m) as Hload.
      destruct (load_file async_load m) as [[[]| |] m1]; cbn [snd] in *;
        [|done..].
      destruct (compile_then_link_spec m1)
        as (m2 & m3 & Hc & Hl & _ & _ & _ & _ & _ & _ & _ & Hd).
      rewrite bind_unfold, Hc, Hl. cbn [snd]. by rewrite Hd.
  - destruct (link_shader_returns m)
      as (m' & Hc & _ & _ & _ & _ & _ & _ & Hd).
    rewrite Hc. cbn [snd]. by rewrite Hd.
  - destruct (log_compilation_status_frame m) as (_ & Hd & _).
    by rewrite Hd.
Qed.

(** C7, as the code has it: the destructor has no precondition on loads in
    flight and neither waits for a loader thread nor stops one.  On every
    machine it returns normally, having only called [glDeleteProgram], and
    leaves the detached threads as they were, each with the stages it had
    left: exactly as many loads are in flight after it as before.  No
    other operation joins or cancels a load either: whatever is called,
    when the call returns or throws the threads detached before it are
    still there. *)
Theorem destructor_does_not_wait_for_detached_loads (m : machine G) :
  (exists m',
     destructor m = (Normal tt, m')
     /\ trace m' = trace m ++ [gl_DeleteProgram (shader_id (this m))]
     /\ detached m' = detached m
     /\ in_flight m' = in_flight m
     /\ heap m' = heap m /\ files m' = files m)
  /\ (forall c,
        (run c m).1 <> Undefined ->
        detached m `prefix_of` detached (run c m).2).
Proof.
  split; [|intros c _; apply run_keeps_detached].
  returns. split; [trace_evaluated|]. by repeat split.
Qed.

End Detached.

(** C7, the counterexample: an asynchronous load is started and the
    destructor is called while the loader thread has not run.  The
    destructor returns normally, and the load is still in flight after it,
    with both its stages left to run on the content fields of the program
    that was destroyed. *)
Lemma destructor_returns_with_load_in_flight :
  let m0 := (set_path example_paths;; load_file true) example_machine in
  let d := destructor m0.2 in
  (m0.1 = Normal tt /\ in_flight m0.2 = true)
  /\ (d.1 = Normal tt
      /\ in_flight d.2 = true
      /\ detached d.2 = [[(vertex_content_ref, 10%N);
                          (fragment_content_ref, 20%N)]]).
Proof. vm_compute. repeat split. Qed.

(** ** What no operation does to the memory and to the files *)

Section Frames.
Context {G : Type} `{!GLDriver G}.

Lemma keeps_refl (m : machine G) : keeps_memory_and_files m m.
Proof. by split. Qed.

Lemma keeps_trans (m1 m2 m3 : machine G) :
  keeps_memory_and_files m1 m2 -> keeps_memory_and_files m2 m3 ->
  keeps_memory_and_files m1 m3.
Proof.
  intros [Hf1 Hh1] [Hf2 Hh2]. split; [congruence|by etrans].
Qed.

Lemma keeps_same (m m' : machine G) :
  heap m' = heap m -> files m' = files m -> keeps_memory_and_files m m'.
Proof. intros Hh Hf. split; [done|by rewrite Hh]. Qed.

Lemma keeps_bind {A B} (c : M G A) (k : A -> M G B) (m : machine G) :
  keeps_memory_and_files m (c m).2 ->
  (forall a m1, keeps_memory_and_files m1 (k a m1).2) ->
  keeps_memory_and_files m ((c ≫= k) m).2.
Proof.
  rewrite bind_unfold. destruct (c m) as [[a| |] m1]; cbn [snd]; try done.
  intros Hc Hk. by eapply keeps_trans.
Qed.

Lemma load_stage_keeps sc pth (m : machine G) :
  keeps_memory_and_files m (load_stage sc pth m).2.
Proof.
  destruct (c_str_at (heap m) pth) as [name|] eqn:Hn.
  - destruct (files m !! string_of_list_ascii name) as [f|] eqn:Hf.
    + rewrite (load_stage_reads _ _ _ _ _ Hn Hf).
      split; [done|]. cbn [snd heap]. apply insert_subseteq.
      apply fresh_address_spec.
    + rewrite (load_stage_missing _ _ _ _ Hn Hf). by apply keeps_same.
  - rewrite (load_stage_no_string _ _ _ Hn). apply keeps_refl.
Qed.

Lemma load_file_keeps async (m : machine G) :
  keeps_memory_and_files m (load_file async m).2.
Proof.
  destruct async; [by apply keeps_same|].
  rewrite load_file_sync_is_loader_func. unfold __loader_func.
  apply keeps_bind; auto using load_stage_keeps.
Qed.








(** X4: a second synchronous load does not reuse the arrays of the first:
    it stores two new pointers, and the two arrays of the first load stay
    allocated with their cells, no longer referred to by the program. *)
Theorem load_file_sync_twice_leaks (m : machine G) vname vf fname ff :
  c_str_at (heap m) (vertex_shader (paths (this m))) = Some vname ->
  files m !! string_of_list_ascii vname = Some vf ->
  c_str_at (heap m) (fragment_shader (paths (this m))) = Some fname ->
  files m !! string_of_list_ascii fname = Some ff ->
  exists m1 m2,
    load_file false m = (Normal tt, m1)
    /\ load_file false m1 = (Normal tt, m2)
    /\ let old := contents (this m1) in
       let new := contents (this m2) in
       vertex_shader_content new <> vertex_shader_content old
       /\ vertex_shader_content new <> fragment_shader_content old
       /\ fragment_shader_content new <> vertex_shader_content old
       /\ fragment_shader_content new <> fragment_shader_content old
       /\ is_Some (heap m1 !! vertex_shader_content old)
       /\ is_Some (heap m1 !! fragment_shader_content old)
       /\ heap m2 !! vertex_shader_content old
          = heap m1 !! vertex_shader_content old
       /\ heap m2 !! fragment_shader_content old
          = heap m1 !! fragment_shader_content old.
Proof.
  intros Hv Hvf Hf Hff.
  destruct (load_file_sync_allocates m _ _ _ _ Hv Hvf Hf Hff)
    as (m1 & pv & pf & Hload & Hpv & Hpf & Hne & Hpvn & Hpfn & Hthis & Hheap
        & Hfiles & _).
  pose proof (load_file_keeps false m) as [_ Hsub].
  rewrite Hload in Hsub. cbn [snd] in Hsub.
  assert (Hv1 : c_str_at (heap m1) (vertex_shader (paths (this m1)))
                = Some vname).
  { rewrite Hthis. by apply (c_str_at_weaken (heap m)). }
  assert (Hf1 : c_str_at (heap m1) (fragment_shader (paths (this m1)))
                = Some fname).
  { rewrite Hthis. by apply (c_str_at_weaken (heap m)). }
  rewrite <- Hfiles in Hvf, Hff.
  destruct (load_file_sync_allocates m1 _ _ _ _ Hv1 Hvf Hf1 Hff)
    as (m2 & qv & qf & Hload2 & _ & _ & _ & Hqvn & Hqfn & Hthis2 & Hheap2 & _).
  exists m1, m2. split; [exact Hload|]. split; [exact Hload2|].
  rewrite Hthis, Hthis2. cbn.
  assert (Hpv1 : is_Some (heap m1 !! pv)).
  { rewrite Hheap. rewrite lookup_insert_ne, lookup_insert_eq by done. eauto. }
  assert (Hpf1 : is_Some (heap m1 !! pf)).
  { rewrite Hheap. rewrite lookup_insert_eq. eauto. }
  assert (Hvv : qv <> pv) by (intros ->; rewrite Hqvn in Hpv1; by destruct Hpv1).
  assert (Hvf' : qv <> pf) by (intros ->; rewrite Hqvn in Hpf1; by destruct Hpf1).
  assert (Hfv : qf <> pv) by (intros ->; rewrite Hqfn in Hpv1; by destruct Hpv1).
  assert (Hff' : qf <> pf) by (intros ->; rewrite Hqfn in Hpf1; by destruct Hpf1).
  repeat split; try done.
  - rewrite Hheap2. by rewrite !lookup_insert_ne.
  - rewrite Hheap2. by rewrite !lookup_insert_ne.
Qed.

End Frames.

(** ** Releasing, and the whole pipeline *)

Section Pipeline.
Context {G : Type} `{!GLDriver G}.

(** X5: the destructor issues one [glDeleteProgram] for [shader_id] and
    nothing else: [shader_id] and the content pointers are kept, no array
    is freed.  Run twice (once by hand, as its comment invites, and once
    at the end of the scope) it deletes the same name twice. *)
Theorem destructor_only_deletes_the_program_name (m : machine G) :
  exists m',
    (destructor;; destructor) m = (Normal tt, m')
    /\ trace m' = trace m ++ [gl_DeleteProgram (shader_id (this m));
                              gl_DeleteProgram (shader_id (this m))]
    /\ shader_id (this m') = shader_id (this m)
    /\ contents (this m') = contents (this m)
    /\ heap m' = heap m.
Proof.
  returns. split; [trace_evaluated|evaluated].
Qed.

(** X6: [compile_shader] followed by [link_shader] makes exactly these
    driver calls, in this order: each stage is created, given the string
    its content pointer designates, and compiled (vertex first); the
    program is created; the two stages just created are attached, the
    program is linked, and the two stages are deleted.  The stage ids the
    program keeps afterwards are those of the deleted stages. *)
Theorem compile_then_link_driver_calls (m : machine G) :
  exists m' vid fid pid,
    (compile_shader;; link_shader) m = (Normal tt, m')
    /\ trace m' =
         trace m ++
         [gl_CreateShader GL_VERTEX_SHADER vid;
          gl_ShaderSource vid
            (c_str_at (heap m) (vertex_shader_content (contents (this m))));
          gl_CompileShader vid;
          gl_CreateShader GL_FRAGMENT_SHADER fid;
          gl_ShaderSource fid
            (c_str_at (heap m) (fragment_shader_content (contents (this m))));
          gl_CompileShader fid;
          gl_CreateProgram pid;
          gl_AttachShader pid vid;
          gl_AttachShader pid fid;
          gl_LinkProgram pid;
          gl_DeleteShader vid;
          gl_DeleteShader fid]
    /\ vertex_shader_id (this m') = vid
    /\ fragment_shader_id (this m') = fid
    /\ shader_id (this m') = pid
    /\ get_shader_state (this m') = Some LINKED.
Proof.
  exists ((compile_shader;; link_shader) m).2,
    (vertex_shader_id (this ((compile_shader;; link_shader) m).2)),
    (fragment_shader_id (this ((compile_shader;; link_shader) m).2)),
    (shader_id (this ((compile_shader;; link_shader) m).2)).
  split; [apply returns_from_fst; vm_compute; reflexivity|].
  split; [trace_evaluated|evaluated].
Qed.

Lemma run_state_change c r (m m' : machine G) :
  run c m = (r, m') ->
  _shader_state (this m') = _shader_state (this m)
  \/ exists s, s <> EMPTY /\ get_shader_state (this m') = Some s.
Proof.
  intros Hrun. rewrite run_unfold in Hrun. destruct c.
  - destruct (set_path_returns p m) as (m2 & Hc & Hst & _).
    rewrite Hc in Hrun. injection Hrun as _ <-. right. by exists FOUND_PATH.
  - destruct async.
    + left.
      assert (Hs : _shader_state (this (load_file true m).2)
                   = _shader_state (this m)) by (vm_compute; reflexivity).
      by rewrite Hrun in Hs.
    + rewrite load_file_sync_is_loader_func in Hrun. left.
      pose proof (loader_func_frame vertex_content_ref fragment_content_ref
                (vertex_shader (paths (this m)))
                (fragment_shader (paths (this m))) m) as (Hst & _).
      by rewrite Hrun in Hst.
  - destruct (set_content_returns vertex_shader_content'
                fragment_shader_content' m) as (m2 & Hc & Hst & _).
    rewrite Hc in Hrun. injection Hrun as _ <-. right. by exists CONTENT.
  - destruct (compile_shader_returns m) as (m2 & Hc & Hst & _).
    rewrite Hc in Hrun. injection Hrun as _ <-. right. by exists COMPILED.
  - destruct (link_shader_returns m) as (m2 & Hc & Hst & _).
    rewrite Hc in Hrun. injection Hrun as _ <-. right. by exists LINKED.
  - destruct (destructor_returns m) as (m2 & Hc & Hst & _).
    rewrite Hc in Hrun. injection Hrun as _ <-. right. by exists DESTROYED.
  - rewrite full_load_shader_unfold in Hrun. case_bool_decide as Hnull.
    + destruct (compile_then_link_returns m) as (m3 & Hcl & Hst).
      rewrite Hcl in Hrun. injection Hrun as _ <-. right. by exists LINKED.
    + rewrite bind_unfold in Hrun.
      assert (Hl : _shader_state (this (load_file async_load m).2)
                   = _shader_state (this m)).
      { destruct async_load; [vm_compute; reflexivity|].
        rewrite load_file_sync_is_loader_func. apply loader_func_frame. }
      destruct (load_file async_load m) as [[[]| |] m1] eqn:Hload.
      * destruct (compile_then_link_returns m1) as (m3 & Hcl & Hst).
        rewrite Hcl in Hrun. injection Hrun as _ <-. right. by exists LINKED.
      * injection Hrun as _ <-. by left.
      * injection Hrun as _ <-. by left.
  - destruct (link_shader_returns m) as (m2 & Hc & Hst & _).
    rewrite Hc in Hrun. injection Hrun as _ <-. right. by exists LINKED.
  - destruct (log_compilation_status_frame m) as (Hthis & _).
    rewrite Hrun in Hthis. cbn [snd] in Hthis. left. by rewrite Hthis.
Qed.

Lemma worker_step_state i (m : machine G) :
  _shader_state (this (worker_step i m).2) = _shader_state (this m).
Proof.
  unfold worker_step. cbv [mbind M_bind bind get_machine mret M_ret ret].
  destruct (detached m !! i) as [[|[sc pth] rest]|]; try done.
  cbv [update].
  by destruct (load_stage_frame sc pth
                 (with_detached (<[i:=rest]> (detached m)) m)) as (-> & _).
Qed.

Lemma step_state_change (m m' : machine G) :
  step m m' ->
  _shader_state (this m') = _shader_state (this m)
  \/ exists s, s <> EMPTY /\ get_shader_state (this m') = Some s.
Proof.
  intros [c m1 m2 Hrun|c e m1 m2 Hrun|i m1 m2 Hrun].
  - by eapply run_state_change.
  - by eapply run_state_change.
  - left. pose proof (worker_step_state i m1) as Hs. by rewrite Hrun in Hs.
Qed.

(** X7: no operation stores EMPTY.  A program that has left state EMPTY is
    never in it again, whatever is called on it afterwards and whatever
    stage a loader thread runs. *)
Theorem state_never_returns_to_EMPTY (m m' : machine G) :
  rtc step m m' ->
  get_shader_state (this m) <> Some EMPTY ->
  get_shader_state (this m') <> Some EMPTY.
Proof.
  induction 1 as [|m1 m2 m3 Hstep _ IH]; [done|].
  intros Hne. apply IH.
  destruct (step_state_change _ _ Hstep) as [Hsame|(s & Hs & ->)].
  - unfold get_shader_state. by rewrite Hsame.
  - congruence.
Qed.

End Pipeline.

(** ** The program name *)

Section Handle.
Context {G : Type} `{!GLDriver G}.

Lemma grows_refl (m : machine G) : grows_keeping_handle m m.
Proof. split; [done|by left]. Qed.

Lemma grows_trans (m1 m2 m3 : machine G) :
  grows_keeping_handle m1 m2 -> grows_keeping_handle m2 m3 ->
  grows_keeping_handle m1 m3.
Proof.
  intros [Hp1 Hid1] [Hp2 Hid2]. split; [by etrans|].
  destruct Hid2 as [Heq|Hin]; [|by right].
  rewrite Heq. destruct Hid1 as [Heq1|Hin1]; [by left|right].
  destruct Hp2 as [k ->]. apply elem_of_app. by left.
Qed.

Lemma grows_bind {A B} (c : M G A) (k : A -> M G B) (m : machine G) :
  grows_keeping_handle m (c m).2 ->
  (forall a m1, grows_keeping_handle m1 (k a m1).2) ->
  grows_keeping_handle m ((c ≫= k) m).2.
Proof.
  rewrite bind_unfold. destruct (c m) as [[a| |] m1]; cbn [snd]; try done.
  intros Hc Hk. by eapply grows_trans.
Qed.

Lemma grows_same (m m' : machine G) :
  trace m' = trace m -> shader_id (this m') = shader_id (this m) ->
  grows_keeping_handle m m'.
Proof. intros Ht Hid. split; [by rewrite Ht|by left]. Qed.

Lemma grows_emit e (m : machine G) : grows_keeping_handle m (emit e m).2.
Proof. split; [by apply prefix_app_r|by left]. Qed.

Lemma grows_update_this f (m : machine G) :
  (forall sh, shader_id (f sh) = shader_id sh) ->
  grows_keeping_handle m (update_this f m).2.
Proof. intros Hf. apply grows_same; [done|apply Hf]. Qed.

Lemma grows_gl_do f (m : machine G) : grows_keeping_handle m (gl_do f m).2.
Proof. by apply grows_same. Qed.

Lemma grows_gl_call {A} (f : G -> A * G) (m : machine G) :
  grows_keeping_handle m (gl_call f m).2.
Proof. by apply grows_same. Qed.

Lemma grows_get_machine (m : machine G) :
  grows_keeping_handle m (get_machine m).2.
Proof. apply grows_refl. Qed.

Lemma grows_ret {A} (a : A) (m : machine G) :
  grows_keeping_handle m ((mret a : M G A) m).2.
Proof. apply grows_refl. Qed.

End Handle.

(** Goes through a member function bind by bind; what is left are the
    steps that are no plain field update, event or driver call. *)
Ltac grows_step :=
  lazymatch goal with
  | |- grows_keeping_handle _ (snd (mbind _ _ _)) =>
      apply grows_bind; [|intros ? ?; cbv beta zeta]
  | |- grows_keeping_handle _ (snd (emit _ _)) => apply grows_emit
  | |- grows_keeping_handle _ (snd (gl_do _ _)) => apply grows_gl_do
  | |- grows_keeping_handle _ (snd (gl_call _ _)) => apply grows_gl_call
  | |- grows_keeping_handle _ (snd (get_machine _)) => apply grows_get_machine
  | |- grows_keeping_handle _ (snd (mret _ _)) => apply grows_ret
  | |- grows_keeping_handle _ (snd (update_this _ _)) =>
      apply grows_update_this; intros sh; (reflexivity || by destruct sh)
  | |- grows_keeping_handle _ (snd ((if decide _ then _ else _) _)) =>
      case_decide
  end.
Ltac grows := repeat grows_step.

Section HandleInvariant.
Context {G : Type} `{!GLDriver G}.

Lemma set_path_grows p (m : machine G) :
  grows_keeping_handle m (set_path p m).2.
Proof. unfold set_path. grows. Qed.

Lemma set_content_grows v f (m : machine G) :
  grows_keeping_handle m (set_content v f m).2.
Proof. unfold set_content. grows. Qed.

Lemma compile_shader_grows (m : machine G) :
  grows_keeping_handle m (compile_shader m).2.
Proof. unfold compile_shader. grows. Qed.

Lemma destructor_grows (m : machine G) :
  grows_keeping_handle m (destructor m).2.
Proof. unfold destructor. grows. Qed.

Lemma log_compilation_status_grows (m : machine G) :
  grows_keeping_handle m (compiler.log_compilation_status m).2.
Proof.
  destruct (log_compilation_status_frame m)
    as (Hthis & _ & _ & _ & _ & (rest & Ht) & _).
  split; [rewrite Ht; by apply prefix_app_r|left; by rewrite Hthis].
Qed.

Lemma link_shader_grows (m : machine G) :
  grows_keeping_handle m (link_shader m).2.
Proof.
  assert (Ht : trace (link_shader m).2 =
               trace m ++
               [gl_CreateProgram (shader_id (this (link_shader m).2));
                gl_AttachShader (shader_id (this (link_shader m).2))
                  (vertex_shader_id (this m));
                gl_AttachShader (shader_id (this (link_shader m).2))
                  (fragment_shader_id (this m));
                gl_LinkProgram (shader_id (this (link_shader m).2));
                gl_DeleteShader (vertex_shader_id (this m));
                gl_DeleteShader (fragment_shader_id (this m))])
    by trace_evaluated.
  split; [rewrite Ht; by apply prefix_app_r|].
  right. rewrite Ht. apply elem_of_app. right. by left.
Qed.

Lemma load_stage_grows sc pth (m : machine G) :
  grows_keeping_handle m (load_stage sc pth m).2.
Proof.
  destruct (c_str_at (heap m) pth) as [name|] eqn:Hn.
  - destruct (files m !! string_of_list_ascii name) as [f|] eqn:Hf.
    + rewrite (load_stage_reads _ _ _ _ _ Hn Hf). cbn [snd].
      split; [by apply prefix_app_r|left]. by destruct sc.
    + rewrite (load_stage_missing _ _ _ _ Hn Hf).
      split; [by apply prefix_app_r|by left].
  - rewrite (load_stage_no_string _ _ _ Hn). apply grows_refl.
Qed.

Lemma load_file_grows async (m : machine G) :
  grows_keeping_handle m (load_file async m).2.
Proof.
  destruct async.
  - unfold load_file. grows. by apply grows_same.
  - rewrite load_file_sync_is_loader_func. unfold __loader_func.
    apply grows_bind; auto using load_stage_grows.
Qed.

Lemma run_grows c (m : machine G) : grows_keeping_handle m (run c m).2.
Proof.
  rewrite run_unfold. destruct c;
    auto using set_path_grows, load_file_grows, set_content_grows,
      compile_shader_grows, link_shader_grows, destructor_grows,
      log_compilation_status_grows.
  rewrite full_load_shader_unfold. case_bool_decide.
  - apply grows_bind; auto using compile_shader_grows, link_shader_grows.
  - apply grows_bind; [apply load_file_grows|]. intros _ m1.
    apply grows_bind; auto using compile_shader_grows, link_shader_grows.
Qed.

Lemma worker_step_grows i (m : machine G) :
  grows_keeping_handle m (worker_step i m).2.
Proof.
  unfold worker_step. cbv [mbind M_bind bind get_machine mret M_ret ret].
  destruct (detached m !! i) as [[|[sc pth] rest]|].
  - by apply grows_same.
  - cbv [update].
    apply (grows_trans _ (with_detached (<[i:=rest]> (detached m)) m));
      [by apply grows_same|apply load_stage_grows].
  - apply grows_refl.
Qed.

Lemma step_grows (m m' : machine G) : step m m' -> grows_keeping_handle m m'.
Proof.
  intros [c m1 m2 Hrun|c e m1 m2 Hrun|i m1 m2 Hrun].
  - pose proof (run_grows c m1) as Hk. by rewrite Hrun in Hk.
  - pose proof (run_grows c m1) as Hk. by rewrite Hrun in Hk.
  - pose proof (worker_step_grows i m1) as Hk. by rewrite Hrun in Hk.
Qed.

(** X8: on every machine a sequence of operations produces, the program
    name [shader_id] is zero or a name that a [glCreateProgram] call of
    the trace returned: no operation makes a name up, and only
    [link_shader] changes it. *)
Theorem shader_id_is_zero_or_created (m : machine G) :
  reachable m ->
  shader_id (this m) = 0%Z
  \/ gl_CreateProgram (shader_id (this m)) ∈ trace m.
Proof.
  intros (h & fs & g & Hsteps). revert m Hsteps.
  apply (rtc_ind_r (fun m => handle_created m)); [by left|].
  intros m1 m2 _ Hstep IH.
  destruct (step_grows _ _ Hstep) as [[k Hk] [Heq|Hin]]; [|by right].
  unfold handle_created. rewrite Heq.
  destruct IH as [Hz|Hin]; [by left|right].
  rewrite Hk. apply elem_of_app. by left.
Qed.

End HandleInvariant.

(** ** Vectors of programs *)

Section VectorTheorems.
Context {G : Type} `{!GLDriver G}.

Lemma with_this_this (m : machine G) : with_this (this m) m = m.
Proof. by destruct m. Qed.

Lemma on_shader_set_path p shader (m : machine G) :
  on_shader (set_path p) shader m
  = (Normal tt, (set_state FOUND_PATH (set_paths p shader), m)).
Proof. by destruct m. Qed.

Lemma get_multiple_shaders_loop_fills n i paths (m : machine G) :
  i + n = length paths ->
  (Z.of_nat (length paths) <= INT_MAX)%Z ->
  get_multiple_shaders_loop n i paths
    (((fun p => set_state FOUND_PATH (set_paths p new_shader_program))
        <$> take i paths) ++ replicate n new_shader_program) m
  = (Normal tt,
     ((fun p => set_state FOUND_PATH (set_paths p new_shader_program))
        <$> paths, m)).
Proof.
  set (f := fun p => set_state FOUND_PATH (set_paths p new_shader_program)).
  revert i. induction n as [|n IH]; intros i Hlen Hmax.
  - cbn. rewrite app_nil_r, take_ge by lia. done.
  - assert (Hi : i < length paths) by lia.
    destruct (lookup_lt_is_Some_2 paths i Hi) as [p Hp].
    assert (Htake : length (f <$> take i paths) = i).
    { rewrite length_fmap, length_take. lia. }
    cbn [get_multiple_shaders_loop].
    rewrite lookup_app_r by lia. rewrite Htake, Nat.sub_diag. cbn [replicate lookup list_lookup].
    rewrite Hp, on_shader_set_path.
    rewrite decide_True by lia.
    replace (<[i:=f p]> ((f <$> take i paths)
                           ++ new_shader_program
                              :: replicate n new_shader_program))
      with ((f <$> take (S i) paths) ++ replicate n new_shader_program).
    + apply IH; lia.
    + rewrite (take_S_r _ _ _ Hp), fmap_app, <- app_assoc. cbn.
      rewrite insert_app_r_alt by lia. by rewrite Htake, Nat.sub_diag.
Qed.

(** X9: for at most [INT_MAX] paths, [get_multiple_shaders] returns one
    program per path, in the order of the paths, and the program at each
    index is the one [get_shader] makes for the path at that index: state
    FOUND_PATH, that path, no content, zero names.  It calls neither the
    driver nor the filesystem. *)
Theorem get_multiple_shaders_is_get_shader_on_each
    (paths : list shader_paths) (m : machine G) :
  (Z.of_nat (length paths) <= INT_MAX)%Z ->
  get_multiple_shaders paths m
  = (Normal tt, ((fun p => this (loader.get_shader p m).2) <$> paths, m))
  /\ (forall i p, paths !! i = Some p ->
        exists sh,
          ((fun p => this (loader.get_shader p m).2) <$> paths) !! i = Some sh
          /\ get_shader_paths sh = p
          /\ get_shader_state sh = Some FOUND_PATH
          /\ content_populated sh = false
          /\ get_id sh = 0%Z).
Proof.
  intros Hmax. split.
  - pose proof (get_multiple_shaders_loop_fills (length paths) 0 paths m
                  eq_refl Hmax) as Hloop.
    rewrite take_0 in Hloop. unfold get_multiple_shaders.
    etrans; [exact Hloop|]. reflexivity.
  - intros i p Hp. eexists. rewrite list_lookup_fmap, Hp.
    split; [reflexivity|]. by repeat split.
Qed.






End VectorTheorems.

Section VectorTheoremsDriver.
Context {G : Type} `{!GLDriver G}.

Lemma link_shader_trace (m : machine G) :
  trace (link_shader m).2 =
  trace m ++
  [gl_CreateProgram (shader_id (this (link_shader m).2));
   gl_AttachShader (shader_id (this (link_shader m).2))
     (vertex_shader_id (this m));
   gl_AttachShader (shader_id (this (link_shader m).2))
     (fragment_shader_id (this m));
   gl_LinkProgram (shader_id (this (link_shader m).2));
   gl_DeleteShader (vertex_shader_id (this m));
   gl_DeleteShader (fragment_shader_id (this m))].
Proof. trace_evaluated. Qed.

Lemma on_shader_link_shader sh (m : machine G) :
  exists sh' m1 calls,
    on_shader link_shader sh m = (Normal tt, (sh', m1))
    /\ get_shader_state sh' = Some LINKED
    /\ paths sh' = paths sh /\ contents sh' = contents sh
    /\ trace m1 = trace m ++ calls
    /\ length calls = 6
    /\ Forall (fun e => forall id, e <> gl_CompileShader id) calls
    /\ this m1 = this m.
Proof.
  destruct (link_shader_returns (with_this sh m))
    as (m1 & Hlink & Hst & Hp & Hc & _).
  pose proof (link_shader_trace (with_this sh m)) as Ht.
  rewrite Hlink in Ht. cbn [snd] in Ht.
  unfold on_shader. rewrite Hlink. cbn [fst snd].
  eexists _, _, _. split; [reflexivity|].
  split; [done|]. split; [done|]. split; [done|].
  split; [exact Ht|]. split; [done|]. split; [|done].
  repeat constructor; discriminate.
Qed.

(** X13: [compiler::compile_shaders] returns normally with every program
    of the vector in state LINKED, its paths and content as they were; it
    makes six driver calls per program and none of them is a
    [glCompileShader]. *)
Theorem compile_shaders_only_links
    (shaders : list shader_program) (m : machine G) :
  exists shaders' m' calls,
    compile_shaders shaders m = (Normal tt, (shaders', m'))
    /\ Forall2 (fun sh sh' =>
                  get_shader_state sh' = Some LINKED
                  /\ paths sh' = paths sh
                  /\ contents sh' = contents sh) shaders shaders'
    /\ trace m' = trace m ++ calls
    /\ length calls = 6 * length shaders
    /\ Forall (fun e => forall id, e <> gl_CompileShader id) calls
    /\ this m' = this m.
Proof.
  unfold compile_shaders.
  revert m. induction shaders as [|sh shaders IH]; intros m.
  - exists [], m, []. cbn. rewrite app_nil_r. by repeat split.
  - destruct (on_shader_link_shader sh m)
      as (sh' & m1 & calls1 & Hon & Hst & Hp & Hc & Ht1 & Hl1 & Hn1 & Hthis1).
    destruct (IH m1)
      as (shaders' & m' & calls & Heq & Hall & Ht & Hl & Hn & Hthis).
    exists (sh' :: shaders'), m', (calls1 ++ calls).
    cbn [for_each_shader]. rewrite Hon, Heq.
    split; [done|]. split; [by constructor|].
    split; [by rewrite Ht, Ht1, <- app_assoc|].
    split; [rewrite length_app; cbn [length]; lia|].
    split; [by apply Forall_app|congruence].
Qed.

End VectorTheoremsDriver.

(** ** The frame time of a clock that runs forward *)

(** X15: when the clock's count is not negative and did not go back
    during the renderer, the [deltaTime] that [render] stores is a whole
    number of seconds that is not negative and differs from the time that
    really passed by less than one second. *)
Theorem deltaTime_of_a_forward_clock renderer count_before count_after g :
  (0 <= count_before <= count_after)%Z ->
  exists k : Z,
    glfw_time.deltaTime
      (glfw_time.render renderer count_before count_after g)
    = glfw_time.long_double_of_integer k
    /\ (0 <= k)%Z
    /\ (Z.abs (k * glfw_time.nanoseconds_period_den
               - (count_after - count_before))
        < glfw_time.nanoseconds_period_den)%Z.
Proof.
  intros Hc.
  exists (Z.quot count_after glfw_time.nanoseconds_period_den
          - Z.quot count_before glfw_time.nanoseconds_period_den)%Z.
  split.
  - unfold glfw_time.render, glfw_time.set_deltaTime, glfw_time.now,
      glfw_time.long_double_of_integer. cbn [glfw_time.deltaTime].
    unfold Qcminus. by rewrite <- Z2Qc_inj_opp, <- Z2Qc_inj_add.
  - unfold glfw_time.nanoseconds_period_den.
    pose proof (Z.quot_rem' count_after 1000000000) as Hq1.
    pose proof (Z.quot_rem' count_before 1000000000) as Hq0.
    pose proof (Z.rem_bound_pos count_after 1000000000) as Hr1.
    pose proof (Z.rem_bound_pos count_before 1000000000) as Hr0.
    pose proof (Z.quot_le_mono count_before count_after 1000000000) as Hm.
    lia.
Qed.

(** ** error.hpp *)

(** X16: for a 32-bit code, [CONVERT_GL_ERRCODE_TO_STRING] reads inside
    the table exactly when the code is 0 or lies between 0x04FF and
    0x0507; each of the nine OpenGL error codes is given its own name, and
    the code 0x04FF, which is no error code, is named GL_NO_ERROR. *)
Theorem errcode_names :
  (forall errcode,
     (0 <= errcode < 2 ^ 32)%Z ->
     is_Some (error.CONVERT_GL_ERRCODE_TO_STRING errcode) <->
     errcode = 0%Z \/ (1279 <= errcode <= 1287)%Z)
  /\ error.CONVERT_GL_ERRCODE_TO_STRING error.GL_NO_ERROR
     = Some "GL_NO_ERROR"
  /\ error.CONVERT_GL_ERRCODE_TO_STRING error.GL_INVALID_ENUM
     = Some "GL_INVALID_ENUM"
  /\ error.CONVERT_GL_ERRCODE_TO_STRING error.GL_INVALID_VALUE
     = Some "GL_INVALID_VALUE"
  /\ error.CONVERT_GL_ERRCODE_TO_STRING error.GL_INVALID_OPERATION
     = Some "GL_INVALID_OPERATION"
  /\ error.CONVERT_GL_ERRCODE_TO_STRING error.GL_STACK_OVERFLOW
     = Some "GL_STACK_OVERFLOW"
  /\ error.CONVERT_GL_ERRCODE_TO_STRING error.GL_STACK_UNDERFLOW
     = Some "GL_STACK_UNDERFLOW"
  /\ error.CONVERT_GL_ERRCODE_TO_STRING error.GL_OUT_OF_MEMORY
     = Some "GL_OUT_OF_MEMORY"
  /\ error.CONVERT_GL_ERRCODE_TO_STRING
       error.GL_INVALID_FRAMEBUFFER_OPERATION
     = Some "GL_INVALID_FRAMEBUFFER_OPERATION"
  /\ error.CONVERT_GL_ERRCODE_TO_STRING error.GL_CONTEXT_LOST
     = Some "GL_CONTEXT_LOST"
  /\ error.CONVERT_GL_ERRCODE_TO_STRING 1279 = Some "GL_NO_ERROR".
Proof.
  split; [|by repeat split].
  intros errcode Hrange. unfold error.CONVERT_GL_ERRCODE_TO_STRING.
  rewrite lookup_lt_is_Some. change (length error.errors) with 9.
  unfold error.errcode_index, error.GL_INVALID_ENUM.
  case_decide as Hz; [subst; cbn; lia|].
  destruct (Z_lt_le_dec errcode 1279) as [Hlt|Hge].
  - replace ((errcode - (1280 - 1)) mod 2 ^ 32)%Z
      with (errcode - 1279 + 2 ^ 32)%Z.
    + lia.
    + symmetry. rewrite <- (Z_mod_plus_full _ 1 (2 ^ 32)).
      rewrite Z.mod_small; lia.
  - rewrite Z.mod_small by lia. lia.
Qed.

Lemma CONVERT_GL_ERRCODE_TO_STRING_of_error errcode :
  (1280 <= errcode <= 1287)%Z ->
  errcode <> error.GL_NO_ERROR
  /\ is_Some (error.CONVERT_GL_ERRCODE_TO_STRING errcode).
Proof.
  intros Hc. split; [unfold error.GL_NO_ERROR; lia|].
  assert (errcode = 1280 \/ errcode = 1281 \/ errcode = 1282
          \/ errcode = 1283 \/ errcode = 1284 \/ errcode = 1285
          \/ errcode = 1286 \/ errcode = 1287)%Z as Hcases by lia.
  destruct Hcases as [->|[->|[->|[->|[->|[->|[->| ->]]]]]]]; by eexists.
Qed.

(** X17: when every recorded error is one of the eight OpenGL errors,
    [read_error_stack] calls the callback once per recorded error, in the
    order [glGetError] returns them, each time with the error's code and
    the name of that code, and leaves the stack empty. *)
Theorem read_error_stack_drains
    {S : Type} (func : error.error_base -> S -> S) (stack : list Z) (s : S) :
  Forall (fun errcode => (1280 <= errcode <= 1287)%Z) stack ->
  exists errs,
    Forall2 (fun errcode e =>
               error.code e = errcode
               /\ error.CONVERT_GL_ERRCODE_TO_STRING errcode
                  = Some (error.what e)) stack errs
    /\ error.read_error_stack func stack s
       = Some (foldl (fun s e => func e s) s errs, []).
Proof.
  unfold error.read_error_stack.
  generalize {| error._code := 0; error._msg := EmptyString |}.
  intros err Hall. revert err s.
  induction Hall as [|errcode stack Hc _ IH]; intros err s.
  - by exists [].
  - destruct (CONVERT_GL_ERRCODE_TO_STRING_of_error errcode Hc)
      as [Hne [msg Hmsg]].
    destruct (IH (error.reuse msg errcode err)
                (func (error.reuse msg errcode err) s))
      as (errs & Hall2 & Hrun).
    exists (error.reuse msg errcode err :: errs). split.
    + by constructor.
    + cbn [error.read_error_stack_loop foldl].
      rewrite decide_False by done. rewrite Hmsg. exact Hrun.
Qed.

(** ** glwindow.hpp *)

Lemma apply_all_snoc ops o w :
  glwindow.apply_all (ops ++ [o]) w
  = glwindow.apply o (glwindow.apply_all ops w).
Proof. unfold glwindow.apply_all. by rewrite foldl_snoc. Qed.

Lemma latest_window_snoc calls c :
  glwindow.latest_window (calls ++ [c])
  = match c with
    | glwindow.glfwCreateWindow _ _ _ _ _ window => window
    | _ => glwindow.latest_window calls
    end.
Proof. unfold glwindow.latest_window. by rewrite foldl_snoc. Qed.

Lemma window_inv_call w c :
  window_inv w ->
  (forall window, glwindow.window_argument c = Some window ->
                  window = glwindow.context w.1) ->
  forall before c' after window,
    w.2 ++ [c] = before ++ c' :: after ->
    glwindow.window_argument c' = Some window ->
    window = glwindow.latest_window before.
Proof.
  intros (_ & Hctx & Hcalls) Hc before c' after window Heq Harg.
  destruct (decide (after = [])) as [->|Hne].
  - apply app_inj_tail in Heq as [<- <-].
    rewrite <- Hctx. by apply Hc.
  - destruct (exists_last Hne) as (after' & c'' & ->).
    change (before ++ c' :: after' ++ [c''])
      with (before ++ (c' :: after') ++ [c'']) in Heq.
    rewrite app_assoc in Heq.
    apply app_inj_tail in Heq as [Heq _].
    by eapply Hcalls.
Qed.

Lemma apply_preserves_window_inv o w :
  window_inv w -> window_inv (glwindow.apply o w).
Proof.
  intros Hinv. pose proof Hinv as (Hl & Hctx & Hcalls).
  destruct o; cbn [glwindow.apply];
    (split; [|split]); cbn; rewrite ?latest_window_snoc; try done;
    try (apply (window_inv_call w _ Hinv); cbn; congruence).
Qed.

Lemma apply_all_window_inv ops :
  window_inv (glwindow.apply_all ops (glwindow.new_gl_window, [])).
Proof.
  induction ops as [|o ops IH] using rev_ind.
  - repeat split. intros [|??] ????; discriminate.
  - rewrite apply_all_snoc. by apply apply_preserves_window_inv.
Qed.

(** X18: after any sequence of operations on a new [gl_window], the
    listener holds the same pointer as the window, and every call to GLFW
    that takes a window was given what the latest [glfwCreateWindow] before
    it returned (null when there was none), also after [destroy]. *)
Theorem window_calls_use_the_latest_created_window
    (ops : list glwindow.operation) :
  let w := glwindow.apply_all ops (glwindow.new_gl_window, []) in
  glwindow.listener_context (glwindow.event_listener w.1)
  = glwindow.context w.1
  /\ forall before c after window,
       w.2 = before ++ c :: after ->
       glwindow.window_argument c = Some window ->
       window = glwindow.latest_window before.
Proof.
  cbn zeta. destruct (apply_all_window_inv ops) as (Hl & _ & Hcalls).
  by split.
Qed.

Lemma apply_all_keeps_context ops w :
  Forall (fun o => glwindow.is_create o = false) ops ->
  glwindow.context (glwindow.apply_all ops w).1 = glwindow.context w.1
  /\ exists calls, (glwindow.apply_all ops w).2 = w.2 ++ calls.
Proof.
  induction ops as [|o ops IH] using rev_ind; intros Hall.
  - split; [done|]. exists []. by rewrite app_nil_r.
  - apply Forall_app in Hall as [Hops Ho%Forall_inv].
    destruct (IH Hops) as (Hctx & calls & Hcalls).
    rewrite apply_all_snoc.
    destruct o; try discriminate;
      unfold glwindow.apply, glwindow.make_context_current,
        glwindow.swap_buffers, glwindow.handle_events,
        glwindow.should_close, glwindow.destroy, glwindow.set_renderer;
      cbn [fst snd glwindow.context]; rewrite ?Hctx, ?Hcalls;
      (split; [done|]); rewrite <- ?app_assoc; eauto.
Qed.

(** X19: [destroy] does not reset the window's pointer: unless the window
    is created again in between, the destructor of a window that was
    destroyed hands the pointer already given to [glfwDestroyWindow] to
    [glfwDestroyWindow] a second time. *)
Theorem destructor_destroys_a_destroyed_window_again
    (ops : list glwindow.operation) (w : glwindow.world) :
  Forall (fun o => glwindow.is_create o = false) ops ->
  exists calls,
    (glwindow.destructor
       (glwindow.apply_all ops (glwindow.destroy w))).2
    = w.2 ++ [glwindow.glfwDestroyWindow (glwindow.context w.1)]
          ++ calls
          ++ [glwindow.glfwDestroyWindow (glwindow.context w.1)].
Proof.
  intros Hall.
  destruct (apply_all_keeps_context ops (glwindow.destroy w) Hall)
    as (Hctx & calls & Hcalls).
  exists calls. unfold glwindow.destructor. cbn [snd].
  rewrite Hctx, Hcalls. cbn. by rewrite <- !app_assoc.
Qed.

(** * The theorems above on the example machine *)


Lemma example_steps :
  rtc step (set_path example_paths example_machine).2
    ((set_path example_paths;; load_file false) example_machine).2.
Proof.
  apply rtc_once, (step_returns (call_load_file false)).
  vm_compute. reflexivity.
Defined.

Lemma load_file_sync_content_witness :
  let m0 := (set_path example_paths example_machine).2 in
  exists m',
    load_file false m0 = (Normal tt, m')
    /\ c_str_at (heap m') (vertex_shader_content (contents (this m')))
       = Some (list_ascii_of_string "void main(){")
    /\ c_str_at (heap m') (fragment_shader_content (contents (this m')))
       = Some (list_ascii_of_string "void main(){ ").
Proof.
  intros m0.
  apply (load_file_sync_content m0
           (list_ascii_of_string "v.glsl")
           {| file_data := list_ascii_of_string "void main(){}";
              file_opens := true |}
           (list_ascii_of_string "f.glsl")
           {| file_data := list_ascii_of_string "void main(){ }";
              file_opens := true |});
    vm_compute; reflexivity.
Defined.

Lemma load_file_sync_drops_the_last_character_witness :
  let m0 := (set_path example_paths example_machine).2 in
  exists m',
    load_file false m0 = (Normal tt, m')
    /\ c_str_at (heap m') (vertex_shader_content (contents (this m')))
       = Some (list_ascii_of_string "void main(){")
    /\ c_str_at (heap m') (fragment_shader_content (contents (this m')))
       = Some (list_ascii_of_string "void main(){ ").
Proof.
  intros m0.
  apply (load_file_sync_drops_the_last_character m0
           (list_ascii_of_string "v.glsl")
           {| file_data := list_ascii_of_string "void main(){}";
              file_opens := true |}
           (list_ascii_of_string "f.glsl")
           {| file_data := list_ascii_of_string "void main(){ }";
              file_opens := true |}
           (list_ascii_of_string "void main(){") "}"%char
           (list_ascii_of_string "void main(){ ") "}"%char);
    try (vm_compute; reflexivity);
    apply (bool_decide_unpack _); vm_compute; exact I.
Defined.


Lemma load_file_sync_twice_leaks_witness :
  let m := (set_path example_paths example_machine).2 in
  exists m1 m2,
    load_file false m = (Normal tt, m1)
    /\ load_file false m1 = (Normal tt, m2)
    /\ let old := contents (this m1) in
       let new := contents (this m2) in
       vertex_shader_content new <> vertex_shader_content old
       /\ vertex_shader_content new <> fragment_shader_content old
       /\ fragment_shader_content new <> vertex_shader_content old
       /\ fragment_shader_content new <> fragment_shader_content old
       /\ is_Some (heap m1 !! vertex_shader_content old)
       /\ is_Some (heap m1 !! fragment_shader_content old)
       /\ heap m2 !! vertex_shader_content old
          = heap m1 !! vertex_shader_content old
       /\ heap m2 !! fragment_shader_content old
          = heap m1 !! fragment_shader_content old.
Proof.
  intros m.
  apply (load_file_sync_twice_leaks m
           (list_ascii_of_string "v.glsl")
           {| file_data := list_ascii_of_string "void main(){}";
              file_opens := true |}
           (list_ascii_of_string "f.glsl")
           {| file_data := list_ascii_of_string "void main(){ }";
              file_opens := true |});
    vm_compute; reflexivity.
Defined.

Lemma state_never_returns_to_EMPTY_witness :
  let m := (set_path example_paths example_machine).2 in
  let m' := ((set_path example_paths;; load_file false) example_machine).2 in
  get_shader_state (this m) = Some FOUND_PATH
  /\ get_shader_state (this m') <> Some EMPTY.
Proof.
  intros m m'. split; [vm_compute; reflexivity|].
  apply (state_never_returns_to_EMPTY m m' example_steps).
  vm_compute. discriminate.
Defined.

Lemma shader_id_is_zero_or_created_witness :
  let m := ((set_path example_paths;; loader.full_load_shader false)
              example_machine).2 in
  shader_id (this m) = 0%Z
  \/ gl_CreateProgram (shader_id (this m)) ∈ trace m.
Proof.
  intros m. apply (shader_id_is_zero_or_created m).
  apply (reachable_after (call_full_load_shader false)
           (set_path example_paths example_machine).2).
  - apply (reachable_after (call_set_path example_paths) example_machine);
      [apply reachable_initial | vm_compute; reflexivity].
  - vm_compute. reflexivity.
Defined.

Lemma get_multiple_shaders_is_get_shader_on_each_witness :
  let paths := [example_paths; example_paths_missing] in
  let m := example_machine in
  get_multiple_shaders paths m
  = (Normal tt, ((fun p => this (loader.get_shader p m).2) <$> paths, m))
  /\ (forall i p, paths !! i = Some p ->
        exists sh,
          ((fun p => this (loader.get_shader p m).2) <$> paths) !! i = Some sh
          /\ get_shader_paths sh = p
          /\ get_shader_state sh = Some FOUND_PATH
          /\ content_populated sh = false
          /\ get_id sh = 0%Z).
Proof.
  intros paths m.
  apply (get_multiple_shaders_is_get_shader_on_each paths m).
  vm_compute. discriminate.
Defined.



Lemma deltaTime_of_a_forward_clock_witness :
  exists k : Z,
    glfw_time.deltaTime
      (glfw_time.render None 1500000000 3200000000
         {| glfw_time.deltaTime := glfw_time.long_double_of_integer 0 |})
    = glfw_time.long_double_of_integer k
    /\ (0 <= k)%Z
    /\ (Z.abs (k * glfw_time.nanoseconds_period_den
               - (3200000000 - 1500000000))
        < glfw_time.nanoseconds_period_den)%Z.
Proof.
  apply (deltaTime_of_a_forward_clock None 1500000000 3200000000). lia.
Defined.

Lemma read_error_stack_drains_witness :
  exists errs,
    Forall2 (fun errcode e =>
               error.code e = errcode
               /\ error.CONVERT_GL_ERRCODE_TO_STRING errcode
                  = Some (error.what e))
      [error.GL_INVALID_OPERATION; error.GL_INVALID_ENUM] errs
    /\ error.read_error_stack (fun e log => log ++ [error.what e])
         [error.GL_INVALID_OPERATION; error.GL_INVALID_ENUM] []
       = Some (foldl (fun log e => log ++ [error.what e]) [] errs, []).
Proof.
  apply (read_error_stack_drains (fun e log => log ++ [error.what e])
           [error.GL_INVALID_OPERATION; error.GL_INVALID_ENUM] []).
  repeat constructor; vm_compute; discriminate.
Defined.

Lemma destructor_destroys_a_destroyed_window_again_witness :
  let w := glwindow.create 800 600 10%N nullptr nullptr 77%N
             (glwindow.new_gl_window, []) in
  exists calls,
    (glwindow.destructor
       (glwindow.apply_all [glwindow.op_swap_buffers; glwindow.op_should_close]
          (glwindow.destroy w))).2
    = w.2 ++ [glwindow.glfwDestroyWindow (glwindow.context w.1)]
          ++ calls
          ++ [glwindow.glfwDestroyWindow (glwindow.context w.1)].
Proof.
  intros w.
  apply (destructor_destroys_a_destroyed_window_again
           [glwindow.op_swap_buffers; glwindow.op_should_close] w).
  repeat constructor.
Defined.
